(* ===== verification/_CoqProject ===== *)
-Q . S2P
Prelude.v
Num.v
Matrix.v
Color.v
Energy.v
SeamFinder.v
Carve.v
Ppm.v
Main.v
Scenarios.v
