(* ===== verification/Prelude.v ===== *)
(** * A verification development for [seam], a seam-carving image resizer

    The program ([src/seam.rs], Rust of late 2012) shrinks an image by
    repeatedly removing the vertical path of pixels ("seam") with the least
    energy.  Its parts, leaf first, and how they call each other:

    - [Matrix<T>] (lines 1-16): a dense row-major grid with [at], [set],
      [width], [height]; every other part stores its data in one.
    - [Color] and [Image] (lines 18-39): an RGB triple of floats with
      [map] and [brightness], and the constructor of a black image.
    - [Image::energy] (lines 48-69): the gradient energy of every pixel,
      with edge clamping.
    - [Image::best_seam] (lines 71-129): a table of (cost, direction)
      cells, then a walk from every bottom cell up the directions, with
      pruning, keeping the cheapest walk.
    - [carve] and [carven] (lines 132-155): remove the seam once, or n
      times, recomputing everything each time.
    - [round], [save_ppm], [load_ppm], [main] (lines 157-227): the PPM
      text format and the command line.

    Data flow: [carven] calls [carve], which calls [best_seam], which calls
    [energy]; all of them read and write [Matrix] values.

    ** Files

    - [Prelude] (this file): the fault type and the result monad standing
      for Rust's panics, 64-bit wrapping [uint] subtraction,
      multiplication and addition, the [for_range] loop of [uint::range] with its
      invariant rule, the [seam] hint database and the [seam_rw]
      rewrite database.
    - [Num]: the numeric interface of the program.  [CostOps] holds what
      the seam finder uses (addition, [<], [==], infinity, zero);
      [FloatOps] adds what the energy uses (product, quotient, square
      root, negation, the literals).  Its instance [float_ops] is IEEE-754
      binary64 ([PrimFloat]), Rust's [float], so the model runs the code
      bit for bit under [vm_compute].  [CostLaws] states what the general
      theorems of the seam finder need: [==] is equality, [<] is a strict
      total order with infinity on top, zero is below infinity, and
      adding a cost of at least zero never lowers a cost.  No law of
      addition (associativity, no overflow) is assumed.  IEEE floats
      still break the laws through NaN (unordered) and -0.0 ([==] to
      0.0), so they are discharged by [xZ], the integers with +infinity,
      which is also executable.
    - [Matrix]: [Matrix] as a record over a list, [at_] (the name [at]
      is a Rocq keyword), [set], the [grow] of a vector, the
      well-formedness invariant, [same_shape] (an equivalence that [set]
      keeps and [wf] respects, for setoid rewriting), and [fill], the
      row-by-row loop that writes [f x y] into every cell.  [energy] and
      the seam table are both instances of [fill].
    - [Color]: [Color], [map], [brightness] and the [Image] constructor.
    - [Energy]: [energy_px] (the loop body) and [energy].  Theorems: the
      result has the image's shape, and every cell holds [energy_px] of
      that pixel (the loop against its pointwise specification,
      [energy_correct]); the energy of an inner pixel does not depend on
      the pixel itself ([energy_ignores_center]).
    - [SeamFinder]: [Direction], [vec_min] (Rust's [iter::min]),
      [dp_cell], [dp_table], [walk], [scan_start], [find_seam] and
      [best_seam].  Theorems:
      + the pruned scan equals a reference scan without pruning, which
        keeps the leftmost of the cheapest walks ([find_seam_equiv_ref]);
      + the table's cells: own energy plus the least energy of the row
        above, ties broken Left, then Right, then Up ([dp_table_tiebreak]);
      + the walk reaches row 0 within [height] steps ([walk_terminates]);
      + over Rust's floats, infinite or NaN energies make a cell of the
        first or last column point out of the image
        ([dp_cell_points_outside]);
      + the fault when the height is 0, and the empty seam when the
        width is 0 ([find_seam_zero_height], [find_seam_zero_width]).
    - [Carve]: [carve_px] (the loop body), [carve_with] (the copy loop
      for a given seam), [carve] and [carven].  Theorems: for a valid
      seam [carve] never faults and returns the image one column
      narrower, each pixel left of the seam kept and each pixel right of
      it moved one column left ([carve_spec]); the images [carven]
      returns stay well formed, one column narrower per carve, while
      the count does not exceed the width ([carven_wf]); on an empty
      image the output width wraps to 2^64 - 1 ([carve_zero_width]).
    - [Ppm]: [round], [save_ppm] and [load_ppm] on files as byte lists,
      with the reader's end-of-file flag as explicit state and the
      library functions the code calls ([fmt!], [uint::from_str],
      [str::split_char], [read_line], the UTF-8 check of
      [str::from_bytes]) written out.  Theorems: printing and parsing a
      [uint] round-trip; [load_ppm] reads back what [save_ppm] writes
      for every image whose channels a 255-based file holds exactly
      ([load_save_roundtrip]); [load_ppm] terminates on every input
      ([load_ppm_terminates]), returns well-formed images
      ([load_ppm_wf]) and never reads past the last pixel
      ([load_ppm_ignores_tail]); a file whose first line is ASCII text
      other than "P3" is refused ([load_ppm_not_p3]); an empty field in
      a pixel line (two spaces in a row) makes it fail
      ([load_ppm_empty_field]).
    - [Main]: [main] on the argument vector and the file system (the
      contents of each path), returning what it prints or writes.
      Theorems: [seam in 0 out] copies a file [save_ppm] wrote, byte for
      byte ([main_copy]); an [Err] of [load_ppm] makes the run fail at
      [get_ref] ([main_load_error]).
    - [Scenarios]: one witness per theorem with hypotheses, applying it
      at a concrete input (the spec's 3x3 image with a white centre,
      small PPM files, an energy matrix with infinite and NaN cells),
      with the hypotheses checked by computation.

    ** What the theorems show about the code

    - The seam finder is a greedy walk, not a dynamic programme: each
      table cell adds the least energy of the row above ([ene], lines
      82-84), not the least accumulated cost ([dp_table_tiebreak]).
      Its scan returns, among the walks from the bottom row, the
      leftmost of least walk cost ([find_seam_equiv_ref]).
    - Central differences skip the centre pixel, so an isolated bright
      pixel has the energy of its surroundings ([energy_ignores_center]).
    - Infinite or NaN energies make the table point out of the image
      ([dp_cell_points_outside]); an empty height faults and an empty
      width wraps ([find_seam_zero_height], [carve_zero_width]).
    - The reader splits on single spaces: two spaces panic
      ([load_ppm_empty_field]); a first line with a trailing carriage
      return is refused as not "P3" ([load_ppm_not_p3]).  [main]
      panics on every file the reader refuses ([main_load_error]).

    ** Modelling choices

    - Rust's [uint] is [nat].  Every subtraction the code does without a
      guard ([self.w-1], [self.h-1], [cx -= 1], [cy -= 1],
      [image.width() - 1]) is [usub], which wraps modulo 2^64 as the
      2012 compiler did.  The sizes passed to [vec::grow] use [umul],
      and the flat index [y * w + x] of [Matrix::at] and [Matrix::set]
      uses [umul] and [uadd]: with a wrapped [cx] or [cy] the index
      wraps as the machine's does.  For a well-formed matrix and
      coordinates inside it the index is below [w * h], which fits in
      64 bits, so the wrap is the identity there ([index_exact]).
    - An index out of bounds, [min] of an empty vector, [get] of [none]
      or of an [Err], a failed [assert] of the standard library, or
      running out of fuel is a [Fault]; otherwise the result is [Ok].
    - The walk of [best_seam] (lines 105-120) is a [loop] with no bound.
      [walk] takes fuel, and [find_seam] passes [height + 1].  This is
      enough: every step moves [cy] one row up, and row 0 holds [None]
      (theorem [walk_terminates]).  The [while] loop of [load_ppm] takes
      [length file + 2] iterations of fuel: each one consumes a byte or
      sets the end-of-file flag ([load_ppm_terminates]).
    - [float::infinity] is [cinf] and [float::sqrt] is [fsqrt].  Literals
      are parsed with round-to-nearest, as Rust parses them.

    ** Not modelled

    - Opening files and I/O errors: [main] receives the file system as
      the contents of each path, and files are byte lists.  The output
      file is opened with [io::Create] only (line 166), without
      truncation, so an existing longer file keeps its old tail; the
      model writes the new contents only.
    - Allocation failure: [vec::grow] of a size that cannot be allocated
      aborts the program; [grow] in the model always succeeds, which is
      why [carve_zero_width] is stated for an image with no row.
    - [f as int] outside the range of [int] (LLVM's undefined value) is
      modelled as the exact truncation, or 0 on NaN and infinities. *)

From stdpp Require Export base list options.
From Stdlib Require Export ZArith Lia.

(** Section lemmas may use every section hypothesis (stdpp's default is
    ["Type"]). *)
#[export] Set Default Proof Using "All".

Declare Scope seam_scope.
Delimit Scope seam_scope with seam.

(** ** Faults and the result monad *)

(** The ways the Rust program stops abnormally: an index outside a
    vector, [min] of an empty vector, [option::get] of [None],
    [result::get_ref] of an [Err], a failed [assert] (the UTF-8 check of
    [str::from_bytes]), and (for the model only) a loop that did not
    finish within its fuel. *)
Inductive fault :=
  | IndexOutOfBounds
  | EmptyMin
  | UnwrapNone
  | UnwrapErr
  | AssertFailed
  | OutOfFuel.

Inductive result (A : Type) : Type :=
  | Ok (a : A)
  | Fault (f : fault).
Arguments Ok {A} a.
Arguments Fault {A} f.

#[export] Instance result_ret : MRet result := fun A a => Ok a.
#[export] Instance result_bind : MBind result :=
  fun A B k r => match r with Ok a => k a | Fault f => Fault f end.

(** [of_option] turns a bounds-checked read into a result. *)
Definition of_option {A} (o : option A) : result A :=
  match o with Some a => Ok a | None => Fault IndexOutOfBounds end.

(** [o.get()]: the value of a [Some], a failure on [None]. *)
Definition unwrap {A} (o : option A) : result A :=
  match o with Some a => Ok a | None => Fault UnwrapNone end.

Lemma unwrap_Ok {A} (o : option A) a : unwrap o = Ok a -> o = Some a.
Proof. destruct o; simpl; congruence. Qed.

Lemma bind_Ok {A B} (a : A) (k : A -> result B) : (Ok a ≫= k) = k a.
Proof. reflexivity. Qed.

Lemma bind_Fault {A B} f (k : A -> result B) : (Fault f ≫= k) = Fault f.
Proof. reflexivity. Qed.

Lemma bind_Ok_inv {A B} (r : result A) (k : A -> result B) b :
  (r ≫= k) = Ok b -> exists a, r = Ok a /\ k a = Ok b.
Proof. destruct r; simpl; [eauto | discriminate]. Qed.

(** ** Unsigned 64-bit arithmetic *)

Definition UINT_MOD : Z := 2 ^ 64.

(** [a - b] on [uint]: wraps around below zero. *)
Definition usub (a b : nat) : nat :=
  Z.to_nat ((Z.of_nat a - Z.of_nat b) mod UINT_MOD).

(** [a * b] on [uint]: wraps around above [2^64 - 1]. *)
Definition umul (a b : nat) : nat :=
  Z.to_nat ((Z.of_nat a * Z.of_nat b) mod UINT_MOD).

(** [a + b] on [uint]: wraps around above [2^64 - 1]. *)
Definition uadd (a b : nat) : nat :=
  Z.to_nat ((Z.of_nat a + Z.of_nat b) mod UINT_MOD).

(** A [uint] computed by wrapping operations: the value modulo 2^64. *)
Definition uwrap (n : nat) : nat := Z.to_nat (Z.of_nat n mod UINT_MOD).

(** [simpl] must not unfold a wrapped value: [Z.to_nat (2^64 - 1)] is a
    unary numeral of that size.  [vm_compute] still runs them. *)
Arguments usub : simpl never.
Arguments umul : simpl never.
Arguments uadd : simpl never.
Arguments uwrap : simpl never.

(** A value that fits in a [uint]. *)
Definition fits_uint (n : nat) : Prop := (Z.of_nat n < UINT_MOD)%Z.

Lemma fits_uint_le a b : a <= b -> fits_uint b -> fits_uint a.
Proof. unfold fits_uint. intros Hab Hb. apply Nat2Z.inj_le in Hab. lia. Qed.

Lemma usub_small a b : b <= a -> fits_uint a -> usub a b = a - b.
Proof.
  unfold usub, fits_uint, UINT_MOD. intros Hle Hfit.
  rewrite Z.mod_small by lia. lia.
Qed.

Lemma usub_underflow a b : a < b -> fits_uint (b - a) ->
  usub a b = Z.to_nat (UINT_MOD - Z.of_nat (b - a)).
Proof.
  unfold usub, fits_uint, UINT_MOD. intros Hlt Hfit.
  f_equal. rewrite <- (Z.mod_add _ 1) by lia.
  rewrite Z.mod_small; lia.
Qed.

Lemma umul_small a b : fits_uint (a * b) -> umul a b = a * b.
Proof.
  unfold umul, fits_uint, UINT_MOD. intros Hfit.
  rewrite <- Nat2Z.inj_mul, Z.mod_small by lia. lia.
Qed.

Lemma uadd_small a b : fits_uint (a + b) -> uadd a b = a + b.
Proof.
  unfold uadd, fits_uint, UINT_MOD. intros Hfit.
  rewrite <- Nat2Z.inj_add, Z.mod_small by lia. lia.
Qed.

Lemma uwrap_small n : fits_uint n -> uwrap n = n.
Proof.
  unfold uwrap, fits_uint, UINT_MOD. intros Hfit.
  rewrite Z.mod_small by lia. lia.
Qed.

Lemma uwrap_fits n : fits_uint (uwrap n).
Proof.
  unfold uwrap, fits_uint, UINT_MOD.
  pose proof (Z.mod_pos_bound (Z.of_nat n) (2 ^ 64)) as Hb. rewrite Z2Nat.id; lia.
Qed.

(** ** The loop [for uint::range(lo, hi) |i| { body }] *)

(** [for_go body i n s] runs [body i], [body (i+1)], ..., [n] times,
    threading the state and stopping at the first fault. *)
Fixpoint for_go {S} (body : nat -> S -> result S) (i n : nat) (s : S)
    : result S :=
  match n with
  | O => Ok s
  | Datatypes.S n' => s' ← body i s; for_go body (Datatypes.S i) n' s'
  end.

Definition for_range {S} (lo hi : nat) (body : nat -> S -> result S)
    (s : S) : result S :=
  for_go body lo (hi - lo) s.

(** The loop rule: an invariant indexed by the loop counter that each
    iteration carries from [i] to [i + 1] without fault holds at exit. *)
Lemma for_go_inv {S} (P : nat -> S -> Prop) body i n s :
  P i s ->
  (forall j s, i <= j < i + n -> P j s ->
     exists s', body j s = Ok s' /\ P (Datatypes.S j) s') ->
  exists s', for_go body i n s = Ok s' /\ P (i + n) s'.
Proof.
  revert i s. induction n as [|n IH]; intros i s Hi Hstep; simpl.
  - exists s. rewrite Nat.add_0_r. auto.
  - destruct (Hstep i s) as (s' & Hb & Hs'); [lia | done |].
    rewrite Hb. simpl.
    destruct (IH (Datatypes.S i) s') as (s'' & Hr & Hp); [done | |].
    + intros j t Hj. apply Hstep. lia.
    + exists s''. split; [done |]. by replace (i + Datatypes.S n) with (Datatypes.S i + n) by lia.
Qed.

Lemma for_range_inv {S} (P : nat -> S -> Prop) body lo hi s :
  lo <= hi -> P lo s ->
  (forall j s, lo <= j < hi -> P j s ->
     exists s', body j s = Ok s' /\ P (Datatypes.S j) s') ->
  exists s', for_range lo hi body s = Ok s' /\ P hi s'.
Proof.
  intros Hle H0 Hstep. unfold for_range.
  destruct (for_go_inv P body lo (hi - lo) s H0) as (s' & Hr & Hp).
  - intros j t Hj. apply Hstep. lia.
  - exists s'. split; [done |]. by replace hi with (lo + (hi - lo)) by lia.
Qed.

(** A property of the state that every iteration keeps holds of the
    state a loop returns, whether or not iterations can fault. *)
Lemma for_go_preserve {S} (P : S -> Prop) (body : nat -> S -> result S) i n s s' :
  (forall j t t', P t -> body j t = Ok t' -> P t') ->
  P s -> for_go body i n s = Ok s' -> P s'.
Proof.
  intros Hb. revert i s. induction n as [|n IH]; intros i s Hs; simpl; [by intros [= <-] |].
  destruct (body i s) as [t|f] eqn:E; simpl; [| done]. apply IH. by apply (Hb i s).
Qed.

Lemma for_range_preserve {S} (P : S -> Prop) (body : nat -> S -> result S) lo hi s s' :
  (forall j t t', P t -> body j t = Ok t' -> P t') ->
  P s -> for_range lo hi body s = Ok s' -> P s'.
Proof. apply for_go_preserve. Qed.

(** A loop over an empty range does nothing. *)
Lemma for_range_empty {S} lo hi (body : nat -> S -> result S) s :
  hi <= lo -> for_range lo hi body s = Ok s.
Proof. intros H. unfold for_range. by replace (hi - lo) with 0 by lia. Qed.

(** A loop whose body never changes the state. *)
Lemma for_range_const {S} lo hi (body : nat -> S -> result S) s :
  (forall i, body i s = Ok s) -> for_range lo hi body s = Ok s.
Proof.
  intros Hb. unfold for_range. generalize (hi - lo) as n. intros n. revert lo.
  induction n as [|n IH]; intros i; [reflexivity |]. simpl. rewrite Hb. apply IH.
Qed.

(** A [for uint::range] loop whose body may [return] from the enclosing
    function: the body gives [inl r] for [return r], [inr s] to go on
    with the state [s]. *)
Fixpoint for_go_ret {S R} (body : nat -> S -> result (R + S)) (i n : nat) (s : S)
    : result (R + S) :=
  match n with
  | O => Ok (inr s)
  | Datatypes.S n' =>
      x ← body i s;
      match x with
      | inl r => Ok (inl r)
      | inr s' => for_go_ret body (Datatypes.S i) n' s'
      end
  end.

Definition for_range_ret {S R} (lo hi : nat) (body : nat -> S -> result (R + S))
    (s : S) : result (R + S) :=
  for_go_ret body lo (hi - lo) s.

(** A single iteration is the body itself. *)
Lemma for_range_ret_one {S R} lo (body : nat -> S -> result (R + S)) s :
  for_range_ret lo (Datatypes.S lo) body s = body lo s.
Proof.
  unfold for_range_ret. replace (Datatypes.S lo - lo) with 1 by lia. simpl.
  destruct (body lo s) as [[r|s']|f]; reflexivity.
Qed.

(** The loop faults only with a fault of its body. *)
Lemma for_go_ret_fault {S R} (P : fault -> Prop) (body : nat -> S -> result (R + S)) i n s f :
  (forall j t f', body j t = Fault f' -> P f') ->
  for_go_ret body i n s = Fault f -> P f.
Proof.
  intros Hb. revert i s. induction n as [|n IH]; intros i s; simpl; [done |].
  destruct (body i s) as [[r|s']|f'] eqn:E; simpl; [done | apply IH |].
  intros [= <-]. by eapply Hb.
Qed.

(** A fault of the first iteration is the fault of the loop. *)
Lemma for_range_ret_first_fault {S R} lo hi (body : nat -> S -> result (R + S)) s f :
  lo < hi -> body lo s = Fault f -> for_range_ret lo hi body s = Fault f.
Proof.
  intros Hlt Hb. unfold for_range_ret.
  destruct (hi - lo) as [|n] eqn:E; [lia |]. simpl. by rewrite Hb.
Qed.

(** What every iteration keeps of the state, and what it guarantees of
    a value it returns, holds at the end of the loop. *)
Lemma for_go_ret_preserve {S R} (P : S -> Prop) (Q : R -> Prop)
    (body : nat -> S -> result (R + S)) i n s x :
  (forall j t t', P t -> body j t = Ok (inr t') -> P t') ->
  (forall j t r, P t -> body j t = Ok (inl r) -> Q r) ->
  P s -> for_go_ret body i n s = Ok x ->
  match x with inl r => Q r | inr s' => P s' end.
Proof.
  intros HP HQ. revert i s. induction n as [|n IH]; intros i s Hs; simpl; [by intros [= <-] |].
  destruct (body i s) as [[r|t]|f] eqn:E; simpl; [| | done].
  - intros [= <-]. by apply (HQ i s).
  - apply IH. by apply (HP i s).
Qed.

(** ** Lists *)

(** [v[i]] on a Rust vector: bounds-checked. *)
Definition index {A} (v : list A) (i : nat) : result A := of_option (v !! i).

Lemma index_lt {A} (v : list A) i : i < length v -> exists a, index v i = Ok a /\ v !! i = Some a.
Proof.
  intros H. destruct (v !! i) as [a|] eqn:Ha.
  - exists a. unfold index. by rewrite Ha.
  - apply lookup_ge_None in Ha. lia.
Qed.

Create HintDb seam.
Create Rewrite HintDb seam_rw.
#[export] Hint Rewrite @bind_Ok @bind_Fault : seam_rw.
#[export] Hint Rewrite usub_small umul_small using (unfold fits_uint, UINT_MOD in *; lia) : seam_rw.

(** [res_simpl] evaluates the binds whose left side is a known [Ok] or
    [Fault] and rewrites in-range [uint] arithmetic. *)
Ltac res_simpl := repeat (progress (autorewrite with seam_rw in *; simpl in *)).

(** [bind_inv H] splits [H : (r ≫= k) = Ok b] into the value of [r] and
    the rest. *)
Ltac bind_inv H :=
  let a := fresh "a" in let Ha := fresh "Ha" in
  apply bind_Ok_inv in H as (a & Ha & H).
