(* ===== verification/Num.v ===== *)
(** * The numbers of the program

    Rust's [float] is IEEE-754 binary64.  The code uses it through few
    operations, collected here as an interface:
    - [CostOps]: what [best_seam] uses: [+], [<] ([>] flipped), [==],
      [float::infinity] and the literal [0.0];
    - [FloatOps]: [CostOps] and what [energy] and [brightness] use:
      [*], [/], [float::sqrt], unary [-], and the literals [0.5],
      [0.0722], [0.7152] and [0.2126].
    [float_ops] implements them with Rocq's primitive binary64 floats, so
    the model computes what the program computes.  [CostLaws] lists the
    order laws the general theorems of [SeamFinder] assume: [==] is
    equality, [<] a strict total order with infinity on top, zero below
    infinity, and adding a cost of at least zero never lowers a cost.
    Nothing is assumed of addition beyond that: it may round and it may
    overflow to infinity.  [xZ] (integers with +infinity) satisfies the
    laws; IEEE floats do not, because NaN is unordered and -0.0 is [==]
    to 0.0. *)

From S2P Require Import Prelude.
From Stdlib Require Import PrimFloat Morphisms RelationClasses.

Class CostOps (F : Type) := {
  cadd : F -> F -> F;      (** [a + b] *)
  clt : F -> F -> bool;    (** [a < b]; [a > b] is [clt b a] *)
  ceqb : F -> F -> bool;   (** [a == b] *)
  cinf : F;                (** [float::infinity] *)
  czero : F                (** [0.0] *)
}.

Class FloatOps (F : Type) := {
  float_cost :: CostOps F;
  fmul : F -> F -> F;      (** [a * b] *)
  fdiv : F -> F -> F;      (** [a / b] *)
  fsqrt : F -> F;          (** [float::sqrt] *)
  fneg : F -> F;           (** unary [-] *)
  fhalf : F;               (** [0.5] *)
  c_r : F;                 (** [0.0722], the weight of red in [brightness] *)
  c_g : F;                 (** [0.7152], green *)
  c_b : F                  (** [0.2126], blue *)
}.

(** ** Rust's [float]: IEEE-754 binary64 *)

#[local] Set Warnings "-inexact-float".
#[export] Instance float_cost_ops : CostOps float := {|
  cadd := PrimFloat.add;
  clt := PrimFloat.ltb;
  ceqb := PrimFloat.eqb;
  cinf := PrimFloat.infinity;
  czero := 0.0%float
|}.

#[export] Instance float_ops : FloatOps float := {|
  float_cost := float_cost_ops;
  fmul := PrimFloat.mul;
  fdiv := PrimFloat.div;
  fsqrt := PrimFloat.sqrt;
  fneg := PrimFloat.opp;
  fhalf := 0.5%float;
  c_r := 0.0722%float;
  c_g := 0.7152%float;
  c_b := 0.2126%float
|}.

(** ** Laws of an exact cost domain *)

Section CostOrder.
Context {F : Type} `{CostOps F}.

(** [a <= b], as [!(b < a)]. *)
Definition cle (a b : F) : bool := negb (clt b a).

(** Below infinity. *)
Definition fin (a : F) : bool := clt a cinf.
End CostOrder.

Class CostLaws (F : Type) `{CostOps F} : Prop := {
  ceqb_spec : forall a b, ceqb a b = true <-> a = b;
  clt_irrefl : forall a, clt a a = false;
  clt_trans : forall a b c, clt a b = true -> clt b c = true -> clt a c = true;
  clt_total : forall a b, a <> b -> clt a b = true \/ clt b a = true;
  cinf_top : forall a, clt cinf a = false;
  czero_fin : fin czero = true;
  cadd_le : forall a b, cle czero b = true -> cle a (cadd a b) = true
}.

(** Equality on a law-abiding cost domain is decided by [==]. *)
#[export] Instance cost_eq_dec {F : Type} `{CostLaws F} : EqDecision F.
Proof.
  intros a b. destruct (ceqb a b) eqn:E.
  - left. by apply ceqb_spec.
  - right. intros Hab. apply ceqb_spec in Hab. congruence.
Defined.

Section CostLemmas.
Context {F : Type} `{CostLaws F}.

Lemma ceqb_refl a : ceqb a a = true.
Proof. by apply ceqb_spec. Qed.

Lemma ceqb_false a b : a <> b -> ceqb a b = false.
Proof. intros Hne. destruct (ceqb a b) eqn:E; [|done]. by apply ceqb_spec in E. Qed.

Lemma clt_asym a b : clt a b = true -> clt b a = false.
Proof.
  intros Hab. destruct (clt b a) eqn:Hba; [|done].
  pose proof (clt_trans _ _ _ Hab Hba) as Haa. by rewrite clt_irrefl in Haa.
Qed.

Lemma cle_refl a : cle a a = true.
Proof. unfold cle. by rewrite clt_irrefl. Qed.

Lemma cle_lt_trans a b c : cle a b = true -> clt b c = true -> clt a c = true.
Proof.
  unfold cle. intros Hab Hbc. destruct (decide (a = c)) as [->|Hne].
  - by rewrite Hbc in Hab.
  - destruct (clt_total a c Hne) as [|Hca]; [done |].
    by rewrite (clt_trans _ _ _ Hbc Hca) in Hab.
Qed.

Lemma lt_cle_trans a b c : clt a b = true -> cle b c = true -> clt a c = true.
Proof.
  unfold cle. intros Hab Hbc. destruct (decide (a = c)) as [->|Hne].
  - by rewrite Hab in Hbc.
  - destruct (clt_total a c Hne) as [|Hca]; [done |].
    by rewrite (clt_trans _ _ _ Hca Hab) in Hbc.
Qed.

Lemma cle_trans a b c : cle a b = true -> cle b c = true -> cle a c = true.
Proof.
  intros Hab Hbc. unfold cle. destruct (clt c a) eqn:Hca; [|done].
  pose proof (lt_cle_trans _ _ _ Hca Hab) as Hcb.
  unfold cle in Hbc. by rewrite Hcb in Hbc.
Qed.

Lemma cle_total a b : cle a b = false -> clt b a = true.
Proof. unfold cle. by destruct (clt b a). Qed.

Lemma fin_not_inf a : fin a = true -> a <> cinf.
Proof. unfold fin. intros Ha ->. by rewrite clt_irrefl in Ha. Qed.

Lemma cle_inf a : cle a cinf = true.
Proof. unfold cle. by rewrite cinf_top. Qed.

Lemma cle_czero_add a b : cle czero a = true -> cle czero b = true -> cle czero (cadd a b) = true.
Proof. intros Ha Hb. eapply cle_trans; [exact Ha | by apply cadd_le]. Qed.
End CostLemmas.

#[export] Hint Resolve ceqb_refl cle_refl cle_inf czero_fin cle_czero_add : seam.

(** ** The integers with +infinity, an exact cost domain *)

Inductive xZ := XFin (z : Z) | XInf.

#[export] Instance xZ_eq_dec : EqDecision xZ.
Proof. solve_decision. Defined.

#[export] Instance xZ_cost_ops : CostOps xZ := {|
  cadd a b := match a, b with XFin x, XFin y => XFin (x + y) | _, _ => XInf end;
  clt a b := match a, b with
             | XFin x, XFin y => (x <? y)%Z
             | XFin _, XInf => true
             | XInf, _ => false end;
  ceqb a b := match a, b with
              | XFin x, XFin y => (x =? y)%Z
              | XInf, XInf => true
              | _, _ => false end;
  cinf := XInf;
  czero := XFin 0
|}.

#[export] Instance xZ_cost_laws : CostLaws xZ.
Proof.
  split; unfold cle, fin; simpl.
  - intros [a|] [b|]; simpl; split; intros E; try congruence.
    + f_equal. by apply Z.eqb_eq. + injection E as ->. apply Z.eqb_refl.
  - intros [a|]; [apply Z.ltb_irrefl | done].
  - intros [a|] [b|] [c|]; simpl; try done. rewrite !Z.ltb_lt. lia.
  - intros [a|] [b|] Hne; simpl; try (left; done); try (right; done).
    rewrite !Z.ltb_lt. assert (a <> b) by congruence. lia.
  - done.
  - done.
  - intros [a|] [b|]; simpl; try done.
    destruct (Z.ltb_spec b 0), (Z.ltb_spec (a + b) a); simpl; lia.
Qed.
