(* ===== verification/Matrix.v ===== *)
(** * [Matrix<T>] (src/seam.rs, lines 1-16)

    A dense grid stored row-major in one vector: cell [(x, y)] is
    [data[y*w + x]], computed in wrapping [uint] arithmetic.  [at] and
    [set] index the vector without checking [x] against the width.  Only
    Rust's own vector bounds check applies, which is a [Fault] here.  The file also holds [grow] (Rust's [vec::grow]),
    the invariant [wf] (the vector has [w*h] cells) and [fill], the
    double loop
    [for uint::range(0, h) |y| { for uint::range(0, w) |x| { m.set(x, y, f(x, y)) } }]
    that [energy] and [best_seam] both run, with its specification
    [fill_spec].  [same_shape] (same width, height and vector length) is
    an equivalence that [set] keeps and [wf] respects, so [wf] is
    carried along a loop of writes by setoid rewriting. *)

From S2P Require Import Prelude.

Record Matrix (T : Type) := mkMatrix {
  data : list T;
  w : nat;
  h : nat
}.
Arguments mkMatrix {T} data w h.
Arguments data {T} m.
Arguments w {T} m.
Arguments h {T} m.

Section MatrixOps.
Context {T : Type}.

(** [pure fn at(x, y) -> T { self.data[y*self.w+x] }] *)
Definition at_ (m : Matrix T) (x y : nat) : result T :=
  index (data m) (uadd (umul y (w m)) x).

(** [fn set(x, y, c) { self.data[y*self.w+x] = c; }] *)
Definition set (m : Matrix T) (x y : nat) (c : T) : result (Matrix T) :=
  let i := uadd (umul y (w m)) x in
  if decide (i < length (data m))
  then Ok (mkMatrix (<[i := c]> (data m)) (w m) (h m))
  else Fault IndexOutOfBounds.

(** A total read for specifications: the cell, or [d] outside. *)
Definition get (d : T) (m : Matrix T) (x y : nat) : T :=
  match at_ m x y with Ok c => c | Fault _ => d end.

Definition width (m : Matrix T) : nat := w m.
Definition height (m : Matrix T) : nat := h m.

(** [v.grow(n, &x)]: append [n] copies of [x]. *)
Definition grow (v : list T) (n : nat) (x : T) : list T := v ++ replicate n x.

(** The invariant of every matrix the program builds: [w*h] cells,
    with [w], [h] and [w*h] in [uint]. *)
Definition wf (m : Matrix T) : Prop :=
  length (data m) = w m * h m /\ fits_uint (w m * h m) /\
  fits_uint (w m) /\ fits_uint (h m).

(** The double loop writing [f x y] into every cell of a [w] by [h]
    region, row after row. *)
Definition fill (wd ht : nat) (f : nat -> nat -> result T) (m : Matrix T)
    : result (Matrix T) :=
  for_range 0 ht (fun y m =>
    for_range 0 wd (fun x m => v ← f x y; set m x y v) m) m.
End MatrixOps.

Section MatrixLemmas.
Context {T : Type}.
Implicit Types m : Matrix T.

(** Distinct cells of a row-major grid have distinct indices. *)
Lemma cell_index_inj (wd x y x' y' : nat) :
  x < wd -> x' < wd -> y * wd + x = y' * wd + x' -> x = x' /\ y = y'.
Proof.
  intros Hx Hx' E.
  destruct (Nat.lt_trichotomy y y') as [Hy|[->|Hy]]; [nia | lia | nia].
Qed.

Lemma cell_index_lt m x y :
  wf m -> x < w m -> y < h m -> y * w m + x < length (data m).
Proof. intros [Hl _] Hx Hy. rewrite Hl. nia. Qed.

(** A well-formed matrix with a cell has both dimensions in [uint]. *)
Lemma wf_fits_w m : wf m -> fits_uint (w m).
Proof. by intros (_ & _ & Hw & _). Qed.

Lemma wf_fits_h m : wf m -> fits_uint (h m).
Proof. by intros (_ & _ & _ & Hh). Qed.

(** Inside a well-formed matrix the index does not wrap. *)
Lemma index_exact m x y :
  wf m -> x < w m -> y < h m -> uadd (umul y (w m)) x = y * w m + x.
Proof.
  intros (Hl & Hf & _) Hx Hy.
  rewrite umul_small by (eapply fits_uint_le; [| exact Hf]; nia).
  apply uadd_small. eapply fits_uint_le; [| exact Hf]; nia.
Qed.

Lemma at_Ok m x y :
  wf m -> x < w m -> y < h m -> exists c, at_ m x y = Ok c.
Proof.
  intros Hwf Hx Hy. pose proof (cell_index_lt m x y Hwf Hx Hy) as Hi.
  destruct (index_lt (data m) _ Hi) as (c & Hc & _). unfold at_.
  rewrite index_exact by done. eauto.
Qed.

Lemma at_get d m x y :
  wf m -> x < w m -> y < h m -> at_ m x y = Ok (get d m x y).
Proof. intros Hwf Hx Hy. unfold get. by destruct (at_Ok m x y Hwf Hx Hy) as [c ->]. Qed.

Lemma set_Ok m x y c :
  wf m -> x < w m -> y < h m ->
  set m x y c = Ok (mkMatrix (<[y * w m + x := c]> (data m)) (w m) (h m)).
Proof.
  intros Hwf Hx Hy. unfold set. rewrite index_exact by done.
  rewrite decide_True; [done | by apply cell_index_lt].
Qed.

Lemma set_wf m m' x y c : wf m -> set m x y c = Ok m' -> wf m'.
Proof.
  unfold set. intros (Hl & Hf) Hs. case_decide; [|done].
  injection Hs as <-. split; simpl; [by rewrite length_insert | done].
Qed.

Lemma set_dims m m' x y c : set m x y c = Ok m' -> w m' = w m /\ h m' = h m.
Proof. unfold set. case_decide; [|done]. intros Hs. by injection Hs as <-. Qed.

(** Reading back a cell after a [set] of a cell of the same row width. *)
Lemma at_set m m' x y c x' y' :
  wf m -> x < w m -> y < h m -> x' < w m -> y' < h m -> set m x y c = Ok m' ->
  at_ m' x' y' = if decide (x' = x /\ y' = y) then Ok c else at_ m x' y'.
Proof.
  intros Hwf Hx Hy Hx' Hy' Hs. rewrite set_Ok in Hs by done. injection Hs as <-.
  unfold at_, index. simpl. rewrite !index_exact by done. case_decide as Heq.
  - destruct Heq as [-> ->]. rewrite list_lookup_insert_eq; [done | by apply cell_index_lt].
  - rewrite list_lookup_insert_ne; [done |].
    intros E. apply Heq. symmetry in E.
    destruct (cell_index_inj (w m) x' y' x y) as [-> ->]; auto.
Qed.

(** Two matrices of the same width, height and vector length. *)
Definition same_shape (a b : Matrix T) : Prop :=
  w a = w b /\ h a = h b /\ length (data a) = length (data b).

#[export] Instance same_shape_equiv : Equivalence same_shape.
Proof.
  split; unfold same_shape; [done | intros ?? (? & ? & ?); done |].
  intros ??? (-> & -> & ->) (-> & -> & ->). done.
Qed.

#[export] Instance wf_proper : Proper (same_shape ==> iff) wf.
Proof. intros a b (Hw & Hh & Hl). unfold wf. by rewrite Hw, Hh, Hl. Qed.

Lemma set_same_shape m m' x y c : set m x y c = Ok m' -> same_shape m' m.
Proof.
  unfold set. case_decide; [| done]. intros Hs. injection Hs as <-.
  split_and!; [done | done |]. cbn [data]. by rewrite length_insert.
Qed.

Lemma grow_length (v : list T) n x : length (grow v n x) = length v + n.
Proof. unfold grow. by rewrite length_app, length_replicate. Qed.

(** [fill] never faults when [f] does not, keeps the shape, and leaves
    [f x y] in every cell of the region. *)
Lemma fill_spec wd ht f m :
  wf m -> w m = wd -> h m = ht ->
  (forall x y, x < wd -> y < ht -> exists v, f x y = Ok v) ->
  exists m', fill wd ht f m = Ok m' /\ wf m' /\ w m' = wd /\ h m' = ht /\
    forall x y, x < wd -> y < ht -> at_ m' x y = f x y.
Proof.
  intros Hwf Hw Hh Hf. unfold fill.
  set (Inv := fun (y : nat) (m' : Matrix T) =>
    wf m' /\ w m' = wd /\ h m' = ht /\
    forall x' y', x' < wd -> y' < y -> at_ m' x' y' = f x' y').
  destruct (for_range_inv Inv (fun y m =>
    for_range 0 wd (fun x m => v ← f x y; set m x y v) m) 0 ht m) as (m' & Hr & Hm'); [lia | | |].
  - refine (conj Hwf (conj Hw (conj Hh _))). intros. lia.
  - intros y m1 Hy (Hwf1 & Hw1 & Hh1 & Hrow).
    set (Inv2 := fun (x : nat) (m2 : Matrix T) =>
      wf m2 /\ w m2 = wd /\ h m2 = ht /\
      forall x' y', x' < wd -> (y' < y \/ (y' = y /\ x' < x)) -> at_ m2 x' y' = f x' y').
    destruct (for_range_inv Inv2 (fun x m => v ← f x y; set m x y v) 0 wd m1) as (m2 & Hr2 & Hm2); [lia | | |].
    + refine (conj Hwf1 (conj Hw1 (conj Hh1 _))).
      intros x' y' Hx' [Hy'|Hy']; [auto | lia].
    + intros x m3 Hx (Hwf3 & Hw3 & Hh3 & Hcell).
      destruct (Hf x y ltac:(lia) ltac:(lia)) as [v Hv].
      rewrite Hv. simpl.
      assert (Hs : set m3 x y v = Ok (mkMatrix (<[y * w m3 + x := v]> (data m3)) (w m3) (h m3)))
        by (apply set_Ok; [done | lia | lia]).
      eexists. split; [exact Hs |].
      refine (conj (set_wf _ _ _ _ _ Hwf3 Hs) (conj Hw3 (conj Hh3 _))).
      intros x' y' Hx' Hxy. rewrite (at_set m3 _ x y v x' y'); [| done | lia.. | done].
      case_decide as E; [destruct E as [-> ->]; done |].
      apply Hcell; [done |]. lia.
    + exists m2. split; [done |].
      destruct Hm2 as (? & ? & ? & Hcell). do 3 (split; [done |]).
      intros x' y' Hx' Hy'. apply Hcell; [done | lia].
  - exists m'. destruct Hm' as (? & ? & ? & ?). auto.
Qed.
End MatrixLemmas.

#[export] Hint Resolve set_wf : seam.
