(* ===== verification/Color.v ===== *)
(** * [Color] and [Image] (src/seam.rs, lines 18-39)

    A colour is three channels of the float type [F].  [Color.map] applies
    a function to each channel (used by [save_ppm]).  [Color.brightness]
    is the weighted sum
    [0.0722 * r + 0.7152 * g + 0.2126 * b], with the weights exactly as
    the source has them.  They are not the BT.709 luma weights, which
    weight red most; see the findings.  [Image] is a matrix of colours,
    and [new_image] is [fn Image(width, height)], a black image.  Rocq
    cannot give a type and a function the same name. *)

From S2P Require Import Prelude Num Matrix.

Record Color (F : Type) := mkColor {
  r : F;
  g : F;
  b : F
}.
Arguments mkColor {F} r g b.
Arguments r {F} c.
Arguments g {F} c.
Arguments b {F} c.

Module Color.
Section ColorOps.
Context {F : Type} `{FloatOps F}.

(** [fn map(f) -> Color { Color { r: f(self.r), g: f(self.g), b: f(self.b) } }] *)
Definition map (c : Color F) (f : F -> F) : Color F :=
  mkColor (f (r c)) (f (g c)) (f (b c)).

(** [0.0722 * self.r + 0.7152 * self.g + 0.2126 * self.b], evaluated
    left to right. *)
Definition brightness (c : Color F) : F :=
  cadd (cadd (fmul c_r (r c)) (fmul c_g (g c))) (fmul c_b (b c)).
End ColorOps.
End Color.

(** [type Image = Matrix<Color>;] *)
Definition Image (F : Type) : Type := Matrix (Color F).

Section ImageNew.
Context {F : Type} `{FloatOps F}.

Definition black : Color F := mkColor czero czero czero.

(** [fn Image(width, height) -> Image]: an empty vector grown to
    [width * height] black pixels (the product wraps like a [uint]). *)
Definition new_image (width height : nat) : Image F :=
  mkMatrix (grow [] (umul width height) black) width height.

Lemma new_image_wf width height :
  fits_uint (width * height) -> fits_uint width -> fits_uint height ->
  wf (new_image width height).
Proof.
  intros Hfit Hw Hh. unfold new_image, wf. simpl.
  rewrite grow_length, umul_small by done. simpl. split_and!; [lia | done..].
Qed.
End ImageNew.
