(* ===== verification/Energy.v ===== *)
(** * [Image::energy] (src/seam.rs, lines 48-69)

    For every pixel, the brightness of its four neighbours, each replaced
    by the pixel itself at the image border, gives a central-difference
    gradient.  Its magnitude divided by [sqrt(0.5)] is the pixel's energy.
    [energy_px] is the body of the double loop, and [energy] the loop
    (an instance of [Matrix.fill]).

    Theorem [energy_correct]: [energy] never faults on a well-formed
    image and returns a matrix of the image's shape.  Every cell holds
    the gradient of the brightness read at the clamped neighbour
    coordinates ([energy_spec]): the loop against its pointwise
    specification.  [energy_ignores_center]: the energy of a pixel with
    four neighbours does not depend on the pixel's own colour. *)

From S2P Require Import Prelude Num Matrix Color.

Section Energy.
Context {F : Type} `{FloatOps F}.

(** [sqrt(x_energy^2 + y_energy^2) / sqrt(0.5)] with
    [x_energy = -0.5 * l + 0.5 * r] and [y_energy = -0.5 * d + 0.5 * u]. *)
Definition gradient (l r u d : F) : F :=
  let x_energy := cadd (fmul (fneg fhalf) l) (fmul fhalf r) in
  let y_energy := cadd (fmul (fneg fhalf) d) (fmul fhalf u) in
  fdiv (fsqrt (cadd (fmul x_energy x_energy) (fmul y_energy y_energy)))
       (fsqrt fhalf).

(** Lines 54-63: the body of the loop at [(x, y)]. *)
Definition energy_px (self : Image F) (x y : nat) : result F :=
  c ← at_ self x y;
  lc ← (if decide (0 < x) then at_ self (x - 1) y else Ok c);
  rc ← (if decide (x < usub (w self) 1) then at_ self (x + 1) y else Ok c);
  uc ← (if decide (0 < y) then at_ self x (y - 1) else Ok c);
  dc ← (if decide (y < usub (h self) 1) then at_ self x (y + 1) else Ok c);
  Ok (gradient (Color.brightness lc) (Color.brightness rc)
               (Color.brightness uc) (Color.brightness dc)).

(** Lines 48-69: a zero matrix of the image's shape, filled row by row. *)
Definition energy (self : Image F) : result (Matrix F) :=
  let m := mkMatrix (grow [] (umul (w self) (h self)) czero) (w self) (h self) in
  fill (w self) (h self) (energy_px self) m.

(** ** Specification *)

(** The pixel at [(x, y)], for reading inside the image. *)
Definition pixel (self : Image F) (x y : nat) : Color F := get black self x y.

(** The neighbour coordinate one step back or forward, clamped to
    [[0, n)]. *)
Definition clamp_prev (i : nat) : nat := if decide (0 < i) then i - 1 else i.
Definition clamp_next (n i : nat) : nat := if decide (i + 1 < n) then i + 1 else i.

(** The energy of [(x, y)] from the brightness at the four clamped
    neighbours. *)
Definition energy_spec (self : Image F) (x y : nat) : F :=
  let br x y := Color.brightness (pixel self x y) in
  gradient (br (clamp_prev x) y) (br (clamp_next (w self) x) y)
           (br x (clamp_prev y)) (br x (clamp_next (h self) y)).

Lemma pixel_at self x y :
  wf self -> x < w self -> y < h self -> at_ self x y = Ok (pixel self x y).
Proof. apply at_get. Qed.

Lemma energy_px_spec self x y :
  wf self -> x < w self -> y < h self ->
  energy_px self x y = Ok (energy_spec self x y).
Proof.
  intros Hwf Hx Hy.
  assert (Hw : usub (w self) 1 = w self - 1) by (apply usub_small; [lia | by apply wf_fits_w]).
  assert (Hh : usub (h self) 1 = h self - 1) by (apply usub_small; [lia | by apply wf_fits_h]).
  unfold energy_px, energy_spec, clamp_prev, clamp_next.
  rewrite Hw, Hh, (pixel_at self x y) by done. simpl.
  repeat case_decide; try lia;
    rewrite ?(pixel_at self) by (auto; lia); simpl;
    repeat (f_equal; try lia).
Qed.

(** Writing one pixel leaves every other pixel as it was. *)
Lemma pixel_set_ne self self' x y c x' y' :
  wf self -> x < w self -> y < h self -> x' < w self -> y' < h self ->
  set self x y c = Ok self' -> (x', y') <> (x, y) -> pixel self' x' y' = pixel self x' y'.
Proof.
  intros Hwf Hx Hy Hx' Hy' Hs Hne. unfold pixel, get.
  rewrite (at_set self self' x y c x' y') by done.
  rewrite decide_False; [done |]. intros [-> ->]. by apply Hne.
Qed.

(** C12. Central differences never read the pixel itself: the energy of
    a pixel with a neighbour on each side is the same whatever colour
    the pixel has.  An isolated bright pixel on a uniform background
    therefore gets the energy of the background, not a high one. *)
Theorem energy_ignores_center self self' x y c :
  wf self -> 0 < x -> x + 1 < w self -> 0 < y -> y + 1 < h self ->
  set self x y c = Ok self' -> energy_px self' x y = energy_px self x y.
Proof.
  intros Hwf Hx0 Hx1 Hy0 Hy1 Hs.
  pose proof (set_wf self self' x y c Hwf Hs) as Hwf'.
  destruct (set_dims self self' x y c Hs) as [Hw Hh].
  rewrite !energy_px_spec by (done || lia).
  unfold energy_spec, clamp_prev, clamp_next. rewrite Hw, Hh.
  rewrite !decide_True by lia.
  rewrite !(pixel_set_ne self self' x y c) by (done || lia || (intros E; injection E; lia)).
  done.
Qed.

(** C5. [energy] of a well-formed image never faults, has the image's
    shape, and holds at every pixel the gradient of the brightness read at
    the clamped neighbours ([energy_spec]): the double loop against its
    pointwise specification. *)
Lemma energy_correct self :
  wf self ->
  exists m, energy self = Ok m /\ wf m /\ w m = w self /\ h m = h self /\
    forall x y, x < w self -> y < h self -> at_ m x y = Ok (energy_spec self x y).
Proof.
  intros Hwf. unfold energy.
  destruct (fill_spec (w self) (h self) (energy_px self)
    (mkMatrix (grow [] (umul (w self) (h self)) czero) (w self) (h self)))
    as (m & Hm & Hwfm & Hw & Hh & Hat).
  - destruct Hwf as (_ & Hfit & Hfw & Hfh). split; simpl; [|done].
    rewrite grow_length, umul_small by done. done.
  - done.
  - done.
  - intros x y Hx Hy. eexists. by apply energy_px_spec.
  - exists m. do 4 (split; [done |]). intros x y Hx Hy.
    rewrite Hat by done. by apply energy_px_spec.
Qed.
End Energy.
