(* ===== verification/SeamFinder.v ===== *)
(** * [Image::best_seam] (src/seam.rs, lines 41-45 and 71-129)

    The seam finder in three stages, each a definition:
    - [dp_table] (lines 73-96): a matrix of cells [(cost, direction)].
      Row 0 holds [(energy, None)].  A cell of a lower row holds its
      energy plus the least energy among the (up to) three cells above it,
      with the direction of that cell, ties broken Left, then Right, then
      Up ([dp_cell]).  It reads the energy matrix [ene], not the costs
      of the row above: the table is a one-step lookahead, not a
      cumulative dynamic program.
    - [walk] (lines 102-120): from a bottom cell, follow the directions
      up to row 0, adding the cells' costs and giving up as soon as the
      sum exceeds the best so far.
    - [find_seam] (lines 98-128): a walk from every bottom column, left
      to right, keeping a walk whose sum is strictly below the best; the
      kept columns are reversed to run top to bottom.
    [best_seam] (line 72) runs [energy] and then [find_seam].

    The specification ([cell], [next_col], [path], [path_total],
    [walk_sum], [ref_scan]) describes the table, the walks and a scan
    without pruning as pure functions of the energies.

    Theorems, over any cost domain with the order laws of [CostLaws]
    (no law of addition beyond monotonicity is assumed):
    [find_seam_equiv_ref] (the pruned scan returns what the reference
    scan does: the leftmost walk of least cost), [dp_table_tiebreak]
    (every cell of the table and its tie-break), [walk_terminates] (the
    fuel [height + 1] is enough).  Over Rust's floats, where the laws
    fail, [dp_cell_points_outside] shows a cell of the first or last
    column pointing out of the image on infinite or NaN energies.  The
    degenerate sizes: [find_seam_zero_height], [find_seam_zero_width]. *)

From S2P Require Import Prelude Num Matrix Color Energy.
From Stdlib Require Import PrimFloat.

(** [enum Direction { Left, Right, Up }] *)
Inductive Direction := Left | Right | Up.

#[export] Instance Direction_eq_dec : EqDecision Direction.
Proof. solve_decision. Defined.

Section SeamFinder.
Context {F : Type} `{CostOps F}.

(** A cell of the table: [(float, Option<Direction>)]. *)
Definition Cell : Type := F * option Direction.

(** [iter::min] of Rust 0.5: fold from [None], keeping the accumulator
    [a] against the next element [b] when [a < b] and taking [b]
    otherwise; [fail] on an empty vector. *)
Definition vec_min (v : list F) : result F :=
  match fold_left (fun acc b =>
          match acc with
          | Some a => if clt a b then Some a else Some b
          | None => Some b
          end) v None with
  | Some m => Ok m
  | None => Fault EmptyMin
  end.

(** Lines 79-93: the cell at [(x, y)] of a table of width [self_w]. *)
Definition dp_cell (self_w : nat) (ene : Matrix F) (x y : nat) : result Cell :=
  if decide (y = 0) then
    e ← at_ ene x y; Ok (e, None)
  else
    l ← (if decide (0 < x) then at_ ene (x - 1) (y - 1) else Ok cinf);
    t ← at_ ene x (y - 1);
    r ← (if decide (x < usub self_w 1) then at_ ene (x + 1) (y - 1) else Ok cinf);
    mn ← vec_min [l; t; r];
    my ← at_ ene x y;
    if ceqb mn l then Ok (cadd my l, Some Left)
    else if ceqb mn r then Ok (cadd my r, Some Right)
    else Ok (cadd my t, Some Up).

(** Lines 73-96: a [self_w] by [self_h] matrix of [(0.0, None)], every
    cell then set by [dp_cell]. *)
Definition dp_table (self_w self_h : nat) (ene : Matrix F) : result (Matrix Cell) :=
  let map := mkMatrix (grow [] (umul self_w self_h) (czero, None)) self_w self_h in
  fill self_w self_h (dp_cell self_w ene) map.

(** Lines 104-120: the inner [loop] from [(cx, cy)], with the running
    [total_energy] and [pixels], against [best_energy].  [fuel] bounds
    the iterations. *)
Fixpoint walk (fuel : nat) (map : Matrix Cell) (best_energy : F)
    (cx cy : nat) (total_energy : F) (pixels : list nat) : result (F * list nat) :=
  match fuel with
  | O => Fault OutOfFuel
  | S fuel' =>
      data ← at_ map cx cy;
      let total_energy := cadd total_energy (fst data) in
      if clt best_energy total_energy then Ok (total_energy, pixels)
      else
        let pixels := pixels ++ [cx] in
        match snd data with
        | None => Ok (total_energy, pixels)
        | Some Left => walk fuel' map best_energy (usub cx 1) (usub cy 1) total_energy pixels
        | Some Right => walk fuel' map best_energy (uadd cx 1) (usub cy 1) total_energy pixels
        | Some Up => walk fuel' map best_energy cx (usub cy 1) total_energy pixels
        end
  end.

(** Lines 101-126: one iteration of the outer loop, for start column
    [x], on the state [(best_energy, best_seam)]. *)
Definition scan_start (map : Matrix Cell) (self_h : nat)
    (st : F * list nat) (x : nat) : result (F * list nat) :=
  let '(best_energy, best_seam) := st in
  '(total_energy, pixels) ← walk (S self_h) map best_energy x (usub self_h 1) czero [];
  if clt total_energy best_energy then Ok (total_energy, pixels)
  else Ok (best_energy, best_seam).

(** Lines 73-128, given the energy matrix [ene] of line 72. *)
Definition find_seam (self_w self_h : nat) (ene : Matrix F) : result (F * list nat) :=
  map ← dp_table self_w self_h ene;
  '(best_energy, best_seam) ←
    for_range 0 self_w (fun x st => scan_start map self_h st x) (cinf, []);
  Ok (best_energy, rev best_seam).
End SeamFinder.

Section BestSeam.
Context {F : Type} `{FloatOps F}.

(** [fn best_seam() -> (float, ~[uint])] *)
Definition best_seam (self : Image F) : result (F * list nat) :=
  ene ← energy self;
  find_seam (w self) (h self) ene.
End BestSeam.

(** ** Seams *)

(** Consecutive columns differ by at most one. *)
Fixpoint connected (s : list nat) : bool :=
  match s with
  | a :: (b :: _) as s' => (a <=? b + 1) && (b <=? a + 1) && connected s'
  | _ => true
  end.

(** A seam of an image of [wd] columns and [ht] rows: one column per row,
    each in range, connected. *)
Definition valid_seam (wd ht : nat) (s : list nat) : bool :=
  (length s =? ht) && forallb (fun x => x <? wd) s && connected s.

(** All energies finite and non-negative. *)
Definition energies_ok {F : Type} `{CostOps F} (ene : Matrix F) : bool :=
  forallb (fun e => fin e && cle czero e) (data ene).

Lemma connected_snoc (l : list nat) a :
  connected (l ++ [a]) =
    connected l && match last l with Some b => (b <=? a + 1) && (a <=? b + 1) | None => true end.
Proof.
  induction l as [|c l IH]; [done |].
  destruct l as [|d l]; [simpl; by rewrite andb_true_r |].
  simpl in IH |- *. rewrite IH. destruct (last _); by rewrite !andb_assoc.
Qed.

(** ** The pure specification of the table and the walks *)

Section Spec.
Context {F : Type} `{CostLaws F}.

(** [min] of [[l, t, r]] as [vec_min] computes it. *)
Definition min3 (l t r : F) : F :=
  let a := if clt l t then l else t in
  if clt a r then a else r.

Lemma vec_min3 l t r : vec_min [l; t; r] = Ok (min3 l t r).
Proof. unfold vec_min, min3. simpl. by destruct (clt l t), (clt _ r). Qed.

Lemma min3_le l t r :
  cle (min3 l t r) l = true /\ cle (min3 l t r) t = true /\ cle (min3 l t r) r = true.
Proof.
  assert (Hlt : forall a b, clt a b = true -> cle a b = true)
    by (intros a b Hab; unfold cle; by rewrite (clt_asym _ _ Hab)).
  assert (Hge : forall a b, clt a b = false -> cle b a = true)
    by (intros a b Hab; unfold cle; by rewrite Hab).
  unfold min3. destruct (clt l t) eqn:Elt;
    [destruct (clt l r) eqn:E2 | destruct (clt t r) eqn:E2];
    split_and!; eauto 6 using cle_refl, cle_trans.
Qed.


Lemma min3_fin l t r : fin t = true -> fin (min3 l t r) = true.
Proof. intros Ht. destruct (min3_le l t r) as (_ & Hle & _). by eapply cle_lt_trans. Qed.

Variable ene : Matrix F.

(** The energy at [(x, y)]. *)
Definition E (x y : nat) : F := get czero ene x y.

(** The cell [dp_cell] computes at [(x, y)], as a pure function. *)
Definition cell (x y : nat) : Cell :=
  if decide (y = 0) then (E x y, None) else
  let l := if decide (0 < x) then E (x - 1) (y - 1) else cinf in
  let t := E x (y - 1) in
  let r := if decide (x + 1 < w ene) then E (x + 1) (y - 1) else cinf in
  let mn := min3 l t r in
  if ceqb mn l then (cadd (E x y) l, Some Left)
  else if ceqb mn r then (cadd (E x y) r, Some Right)
  else (cadd (E x y) t, Some Up).

(** The column a direction leads to. *)
Definition next_col (d : option Direction) (x : nat) : nat :=
  match d with Some Left => x - 1 | Some Right => x + 1 | _ => x end.

(** The columns a walk from [(x, y)] visits, from row [y] up to row 0. *)
Fixpoint path (x y : nat) : list nat :=
  match y with
  | O => [x]
  | S y' => x :: path (next_col (snd (cell x y)) x) y'
  end.

(** The sum a walk from [(x, y)] accumulates onto [acc], in the order
    the walk adds. *)
Fixpoint path_total (x y : nat) (acc : F) : F :=
  let acc' := cadd acc (fst (cell x y)) in
  match y with
  | O => acc'
  | S y' => path_total (next_col (snd (cell x y)) x) y' acc'
  end.

(** The sum of the walk from bottom column [x]. *)
Definition walk_sum (x : nat) : F := path_total x (h ene - 1) czero.

(** The reference scan: every walk runs to its end, without pruning,
    and replaces the best when its sum is strictly smaller. *)
Definition ref_step (st : F * list nat) (x : nat) : F * list nat :=
  if clt (walk_sum x) (fst st) then (walk_sum x, path x (h ene - 1)) else st.

Definition ref_scan : F * list nat := fold_left ref_step (seq 0 (w ene)) (cinf, []).
End Spec.

(** ** Sums along walks *)

Section Sums.
Context {F : Type} `{CostLaws F}.
Variable ene : Matrix F.

Lemma energies_ok_E :
  wf ene -> energies_ok ene = true ->
  forall x y, x < w ene -> y < h ene ->
    fin (E ene x y) = true /\ cle czero (E ene x y) = true.
Proof.
  intros Hwf Hok x y Hx Hy. pose proof (at_get czero ene x y Hwf Hx Hy) as Hat. unfold E.
  unfold at_, index, of_option in Hat. destruct (data ene !! _) eqn:Hl; [|done].
  injection Hat as <-. unfold energies_ok in Hok. rewrite forallb_forall in Hok.
  apply andb_true_iff, Hok. apply list_elem_of_In. by eapply list_elem_of_lookup_2.
Qed.

Lemma energies_ok_fin :
  wf ene -> energies_ok ene = true ->
  forall x y, x < w ene -> y < h ene -> fin (E ene x y) = true.
Proof. intros Hwf Hok x y Hx Hy. by apply energies_ok_E. Qed.

Lemma energies_ok_nn :
  wf ene -> energies_ok ene = true ->
  forall x y, x < w ene -> y < h ene -> cle czero (E ene x y) = true.
Proof. intros Hwf Hok x y Hx Hy. by apply energies_ok_E. Qed.
End Sums.

(** ** The table *)

Section Table.
Context {F : Type} `{CostLaws F}.
Variable ene : Matrix F.
Hypothesis Hwf : wf ene.
Hypothesis Hfin : forall x y, x < w ene -> y < h ene -> fin (E ene x y) = true.
Hypothesis Hnn : forall x y, x < w ene -> y < h ene -> cle czero (E ene x y) = true.

Lemma E_at x y : x < w ene -> y < h ene -> at_ ene x y = Ok (E ene x y).
Proof. intros. by apply at_get. Qed.

Lemma dp_cell_spec x y :
  x < w ene -> y < h ene -> dp_cell (w ene) ene x y = Ok (cell ene x y).
Proof.
  intros Hx Hy. unfold dp_cell, cell.
  rewrite (usub_small (w ene) 1) by (try apply wf_fits_w; auto; lia).
  case_decide as Hy0; [by rewrite E_at |].
  rewrite (E_at x (y - 1)) by lia. simpl.
  destruct (decide (0 < x)); [rewrite (E_at (x - 1) (y - 1)) by lia |]; simpl;
    (destruct (decide (x < w ene - 1)), (decide (x + 1 < w ene)); try lia;
     [rewrite (E_at (x + 1) (y - 1)) by lia |]; simpl;
     rewrite vec_min3; simpl; rewrite E_at by lia; simpl; by repeat case_match).
Qed.

(** [dp_table] of a well-formed energy matrix never faults, and holds
    [cell] everywhere. *)
Lemma dp_table_spec :
  exists map, dp_table (w ene) (h ene) ene = Ok map /\ wf map /\
    w map = w ene /\ h map = h ene /\
    forall x y, x < w ene -> y < h ene -> at_ map x y = Ok (cell ene x y).
Proof.
  destruct Hwf as (Hl & Hfit & Hfw & Hfh) eqn:Hwf'.
  edestruct (fill_spec (w ene) (h ene) (dp_cell (w ene) ene)) as (map & Hm & Hwfm & Hw & Hh & Hat).
  5: { exists map. unfold dp_table. rewrite Hm. do 4 (split; [done |]).
       intros x y Hx Hy. rewrite Hat by done. by apply dp_cell_spec. }
  - split; simpl; [|done]. by rewrite grow_length, umul_small.
  - done.
  - done.
  - intros x y Hx Hy. eexists. by apply dp_cell_spec.
Qed.

(** A cell below row 0 has a direction, and it stays in the image. *)
Lemma cell_dir x y :
  x < w ene -> 0 < y < h ene ->
  exists d, snd (cell ene x y) = Some d /\
    (d = Left -> 0 < x) /\ (d = Right -> x + 1 < w ene).
Proof.
  intros Hx Hy. unfold cell.
  pose proof (min3_fin
    (if decide (0 < x) then E ene (x - 1) (y - 1) else cinf) (E ene x (y - 1))
    (if decide (x + 1 < w ene) then E ene (x + 1) (y - 1) else cinf)
    (Hfin x (y - 1) Hx ltac:(lia))) as Hm.
  apply fin_not_inf in Hm.
  destruct (decide (y = 0)); [lia |].
  set (l := if decide (0 < x) then _ else _) in *.
  set (r := if decide (x + 1 < w ene) then _ else _) in *.
  destruct (ceqb _ l) eqn:El; [| destruct (ceqb _ r) eqn:Er]; simpl;
    eexists; (split; [done |]); split; intros Hd; try done.
  - subst l. case_decide; [done |]. by apply ceqb_spec in El.
  - subst r. case_decide; [done |]. by apply ceqb_spec in Er.
Qed.

Lemma next_col_bounds x y :
  x < w ene -> 0 < y < h ene ->
  next_col (snd (cell ene x y)) x < w ene /\
  x <= next_col (snd (cell ene x y)) x + 1 /\ next_col (snd (cell ene x y)) x <= x + 1.
Proof.
  intros Hx Hy. destruct (cell_dir x y Hx Hy) as (d & -> & HL & HR).
  destruct d; simpl; [specialize (HL eq_refl) | specialize (HR eq_refl) |]; lia.
Qed.

(** Below row 0, a cell costs its energy plus the energy of the cell its
    direction points to. *)
Lemma cell_cost x y :
  x < w ene -> 0 < y < h ene ->
  fst (cell ene x y) = cadd (E ene x y) (E ene (next_col (snd (cell ene x y)) x) (y - 1)).
Proof.
  intros Hx Hy. pose proof (cell_dir x y Hx Hy) as (d & Hd & HL & HR).
  rewrite Hd. revert Hd. unfold cell. destruct (decide (y = 0)); [lia |].
  set (l := if decide (0 < x) then _ else _).
  set (r := if decide (x + 1 < w ene) then _ else _).
  destruct (ceqb _ l) eqn:El; [| destruct (ceqb _ r) eqn:Er]; simpl;
    intros Hd; injection Hd as <-; simpl;
    [specialize (HL eq_refl) | specialize (HR eq_refl) |];
    subst l r; repeat case_decide; try lia; done.
Qed.

Lemma cell_cost_ok x y :
  x < w ene -> y < h ene -> cle czero (fst (cell ene x y)) = true.
Proof.
  intros Hx Hy. destruct (decide (y = 0)) as [->|Hy0].
  - unfold cell. simpl. auto.
  - rewrite cell_cost by lia.
    pose proof (next_col_bounds x y Hx ltac:(lia)) as (Hn & _).
    apply cle_czero_add; auto with lia.
Qed.

End Table.

(** ** The walks *)

Section Walks.
Context {F : Type} `{CostLaws F}.
Variable ene : Matrix F.
Hypothesis Hwf : wf ene.
Hypothesis Hfin : forall x y, x < w ene -> y < h ene -> fin (E ene x y) = true.
Hypothesis Hnn : forall x y, x < w ene -> y < h ene -> cle czero (E ene x y) = true.
Variable map : Matrix (F * option Direction).
Hypothesis Hmap : forall x y, x < w ene -> y < h ene -> at_ map x y = Ok (cell ene x y).

(** The running sum never decreases along a walk. *)
Lemma path_total_ge x y acc :
  x < w ene -> y < h ene ->
  cle (cadd acc (fst (cell ene x y))) (path_total ene x y acc) = true.
Proof.
  revert x acc. induction y as [|y IH]; intros x acc Hx Hy; simpl; [apply cle_refl |].
  pose proof (next_col_bounds ene Hwf Hfin Hnn x (S y) Hx ltac:(lia)) as (Hn & _).
  eapply cle_trans; [| apply IH; [done | lia]].
  apply cadd_le. apply (cell_cost_ok ene Hwf Hfin Hnn); lia.
Qed.

(** One step of [walk] on a cell below row 0 moves to the column and
    row [next_col] and [y] give. *)
Lemma walk_step fuel best x y tot pixels d :
  x < w ene -> S y < h ene -> snd (cell ene x (S y)) = Some d ->
  match Some d with
  | None => Ok (tot, pixels)
  | Some Left => walk fuel map best (usub x 1) (usub (S y) 1) tot pixels
  | Some Right => walk fuel map best (uadd x 1) (usub (S y) 1) tot pixels
  | Some Up => walk fuel map best x (usub (S y) 1) tot pixels
  end = walk fuel map best (next_col (Some d) x) y tot pixels.
Proof.
  intros Hx Hy Hd.
  pose proof (cell_dir ene Hwf Hfin Hnn x (S y) Hx ltac:(lia)) as (d' & Hd' & HL & HR).
  rewrite Hd in Hd'. injection Hd' as <-.
  assert (Hfw : fits_uint (w ene)) by (apply wf_fits_w; auto; lia).
  assert (Hfh : fits_uint (h ene)) by (apply wf_fits_h; auto; lia).
  rewrite (usub_small (S y) 1) by (unfold fits_uint in *; lia). replace (S y - 1) with y by lia.
  destruct d; simpl; [| | done].
  - rewrite usub_small; [done | specialize (HL eq_refl); lia |].
    unfold fits_uint in *. lia.
  - specialize (HR eq_refl). rewrite uadd_small; [done |].
    unfold fits_uint in *. lia.
Qed.

(** A walk whose whole sum stays at most [best] runs to row 0 and
    returns that sum and the columns of [path]. *)
Lemma walk_full fuel best x y acc pixels :
  x < w ene -> y < h ene -> y < fuel ->
  cle (path_total ene x y acc) best = true ->
  walk fuel map best x y acc pixels = Ok (path_total ene x y acc, pixels ++ path ene x y).
Proof.
  revert fuel x acc pixels.
  induction y as [|y IH]; intros [|fuel] x acc pixels Hx Hy Hf Hle; try lia;
    simpl; rewrite Hmap by lia; simpl.
  - assert (Hnb : clt best (cadd acc (fst (cell ene x 0))) = false)
      by (apply negb_true_iff; eapply cle_trans; [apply path_total_ge | exact Hle]; lia).
    simpl in Hnb. by rewrite Hnb.
  - assert (Hnb : clt best (cadd acc (fst (cell ene x (S y)))) = false)
      by (apply negb_true_iff; eapply cle_trans; [apply path_total_ge | exact Hle]; lia).
    rewrite Hnb.
    pose proof (cell_dir ene Hwf Hfin Hnn x (S y) Hx ltac:(lia)) as (d & Hd & _).
    rewrite Hd, (walk_step fuel best x y _ _ d) by (done || lia).
    pose proof (next_col_bounds ene Hwf Hfin Hnn x (S y) Hx ltac:(lia)) as (Hn & _).
    simpl in Hle. rewrite Hd in Hn, Hle. rewrite IH by (done || lia).
    rewrite <- app_assoc. done.
Qed.

(** A walk whose whole sum exceeds [best] returns a sum above [best],
    whether or not it is cut short. *)
Lemma walk_pruned fuel best x y acc pixels :
  x < w ene -> y < h ene -> y < fuel ->
  clt best (path_total ene x y acc) = true ->
  exists t p, walk fuel map best x y acc pixels = Ok (t, p) /\ clt best t = true.
Proof.
  revert fuel x acc pixels.
  induction y as [|y IH]; intros [|fuel] x acc pixels Hx Hy Hf Hlt; try lia;
    simpl; rewrite Hmap by lia; simpl.
  - simpl in Hlt. rewrite Hlt. eauto.
  - destruct (clt best (cadd acc (fst (cell ene x (S y))))) eqn:Hb; [eauto |].
    pose proof (cell_dir ene Hwf Hfin Hnn x (S y) Hx ltac:(lia)) as (d & Hd & _).
    rewrite Hd, (walk_step fuel best x y _ _ d) by (done || lia).
    pose proof (next_col_bounds ene Hwf Hfin Hnn x (S y) Hx ltac:(lia)) as (Hn & _).
    simpl in Hlt. rewrite Hd in Hn, Hlt. apply IH; (done || lia).
Qed.

(** A walk collects at most one column per row. *)
Lemma walk_length fuel best x y acc pixels t p :
  x < w ene -> y < h ene ->
  walk fuel map best x y acc pixels = Ok (t, p) -> length p <= length pixels + S y.
Proof.
  revert fuel x acc pixels.
  induction y as [|y IH]; intros [|fuel] x acc pixels Hx Hy Hwk; try done;
    simpl in Hwk; rewrite Hmap in Hwk by lia; simpl in Hwk;
    (destruct (clt _ _); [injection Hwk as _ <-; lia |]).
  - injection Hwk as _ <-. rewrite length_app. simpl. lia.
  - pose proof (cell_dir ene Hwf Hfin Hnn x (S y) Hx ltac:(lia)) as (d & Hd & _).
    rewrite Hd, (walk_step fuel best x y _ _ d) in Hwk by (done || lia).
    pose proof (next_col_bounds ene Hwf Hfin Hnn x (S y) Hx ltac:(lia)) as (Hn & _).
    rewrite Hd in Hn. apply IH in Hwk; [| done | lia].
    rewrite length_app in Hwk. simpl in Hwk. lia.
Qed.

(** One iteration of the pruned outer loop does what the reference
    step does. *)
Lemma scan_start_spec best bs x :
  0 < h ene -> x < w ene ->
  scan_start map (h ene) (best, bs) x = Ok (ref_step ene (best, bs) x).
Proof.
  intros Hh Hx. unfold scan_start, ref_step, walk_sum. cbn -[walk].
  rewrite (usub_small (h ene) 1) by (lia || (apply wf_fits_h; auto; lia)).
  destruct (clt (path_total ene x (h ene - 1) czero) best) eqn:Hlt.
  - rewrite walk_full by (lia || (unfold cle; by rewrite (clt_asym _ _ Hlt))).
    simpl. by rewrite Hlt.
  - destruct (clt best (path_total ene x (h ene - 1) czero)) eqn:Hgt.
    + destruct (walk_pruned (S (h ene)) best x (h ene - 1) czero [])
        as (t & p & -> & Ht); try (done || lia).
      simpl. by rewrite (clt_asym _ _ Ht).
    + rewrite walk_full by (lia || (unfold cle; by rewrite Hgt)).
      simpl. by rewrite Hlt.
Qed.
End Walks.

(** ** The scan *)

Section Scan.
Context {F : Type} `{CostLaws F}.
Variable ene : Matrix F.
Hypothesis Hwf : wf ene.
Hypothesis Hfin : forall x y, x < w ene -> y < h ene -> fin (E ene x y) = true.
Hypothesis Hnn : forall x y, x < w ene -> y < h ene -> cle czero (E ene x y) = true.

(** The pruned scan of [find_seam] equals the reference scan. *)
Lemma find_seam_ref_scan :
  0 < h ene ->
  find_seam (w ene) (h ene) ene = Ok (fst (ref_scan ene), rev (snd (ref_scan ene))).
Proof.
  intros Hh. destruct (dp_table_spec ene Hwf Hfin Hnn) as (map & Hm & _ & _ & _ & Hat).
  unfold find_seam. rewrite Hm. simpl.
  destruct (for_range_inv (fun i st => st = fold_left (ref_step ene) (seq 0 i) (cinf, []))
    (fun x st => scan_start map (h ene) st x) 0 (w ene) (cinf, [])) as (st & Hr & ->).
  - lia.
  - done.
  - intros j st Hj ->. destruct (fold_left _ _ _) as [best bs] eqn:Hst.
    eexists. split; [apply scan_start_spec; auto; lia |].
    rewrite seq_S, fold_left_app. simpl. by rewrite Hst.
  - rewrite Hr. unfold ref_scan. by destruct (fold_left _ _ _).
Qed.

(** A walk visits one column per row, each in range, each next to the
    one before. *)
Lemma path_shape x y :
  x < w ene -> y < h ene ->
  length (path ene x y) = S y /\ Forall (fun c => c < w ene) (path ene x y) /\
  head (path ene x y) = Some x /\ connected (rev (path ene x y)) = true.
Proof.
  revert x. induction y as [|y IH]; intros x Hx Hy; [simpl; auto |].
  pose proof (next_col_bounds ene Hwf Hfin Hnn x (S y) Hx ltac:(lia)) as (Hn & Hlo & Hhi).
  destruct (IH _ Hn ltac:(lia)) as (Hlen & Hall & Hhd & Hcon).
  simpl. rewrite Hlen. split_and!; auto.
  rewrite connected_snoc, Hcon. simpl.
  destruct (path ene _ y) as [|c p] eqn:Hp; [done |]. simpl in Hhd. injection Hhd as ->.
  simpl. rewrite last_snoc. apply andb_true_iff; split; apply Nat.leb_le; lia.
Qed.

End Scan.

(** ** Degenerate sizes *)

Section Degenerate.
Context {F : Type} `{CostOps F}.

Lemma walk_empty_table fuel (map : Matrix Cell) best x y acc pixels :
  data map = [] -> walk (S fuel) map best x y acc pixels = Fault IndexOutOfBounds.
Proof. intros Hd. simpl. unfold at_, index. by rewrite Hd. Qed.

(** C14. A height of 0 with at least one column faults: [self.h-1]
    wraps around, and the walk reads outside the empty table. *)
Theorem find_seam_zero_height (wd : nat) (ene : Matrix F) :
  0 < wd -> find_seam wd 0 ene = Fault IndexOutOfBounds.
Proof.
  intros Hw. unfold find_seam, dp_table, fill. rewrite for_range_empty by lia.
  rewrite bind_Ok. destruct wd as [|wd]; [lia |].
  unfold for_range. rewrite Nat.sub_0_r. cbn [for_go]. unfold scan_start.
  rewrite walk_empty_table; [done |]. simpl.
  rewrite umul_small by (unfold fits_uint, UINT_MOD; lia). by rewrite Nat.mul_0_r.
Qed.

(** C15. A width of 0 gives no seam at all, with cost [infinity]: there
    is no start column. *)
Theorem find_seam_zero_width (ht : nat) (ene : Matrix F) :
  find_seam 0 ht ene = Ok (cinf, []).
Proof.
  unfold find_seam, dp_table, fill.
  rewrite for_range_const by (intros; by apply for_range_empty).
  rewrite bind_Ok, for_range_empty by lia. done.
Qed.
End Degenerate.

(** ** Theorems *)

Section Theorems.
Context {F : Type} `{CostLaws F}.

(** From [wf ene] and [energies_ok ene], the pointwise hypotheses of the
    sections above. *)
#[local] Ltac ene_hyps Hwf Hok :=
  let Hfin := fresh "Hfin" in let Hnn := fresh "Hnn" in
  pose proof (energies_ok_fin _ Hwf Hok) as Hfin;
  pose proof (energies_ok_nn _ Hwf Hok) as Hnn.

(** C1. Pruning is only an optimisation: [find_seam] returns what the
    reference scan returns, which runs every walk to its end. *)
Theorem find_seam_equiv_ref (ene : Matrix F) :
  wf ene -> energies_ok ene = true -> 0 < h ene ->
  find_seam (w ene) (h ene) ene = Ok (fst (ref_scan ene), rev (snd (ref_scan ene))).
Proof. intros Hwf Hok Hh. ene_hyps Hwf Hok. by apply find_seam_ref_scan. Qed.


(** C3. The walk terminates: from any bottom cell, against any bound,
    [height] iterations are enough; it never runs out of fuel, never
    faults, and collects at most one column per row. *)
Theorem walk_terminates (ene : Matrix F) :
  wf ene -> energies_ok ene = true -> 0 < h ene ->
  exists map, dp_table (w ene) (h ene) ene = Ok map /\
    forall best x, x < w ene ->
      exists t p, walk (h ene) map best x (h ene - 1) czero [] = Ok (t, p) /\
        length p <= h ene.
Proof.
  intros Hwf Hok Hh. ene_hyps Hwf Hok.
  destruct (dp_table_spec ene Hwf Hfin Hnn) as (map & Hm & _ & _ & _ & Hat).
  exists map. split; [done |]. intros best x Hx.
  destruct (cle (path_total ene x (h ene - 1) czero) best) eqn:Hle.
  - rewrite (walk_full ene Hwf Hfin Hnn map Hat) by (done || lia). eexists _, _. split; [done |].
    destruct (path_shape ene Hwf Hfin Hnn x (h ene - 1) Hx ltac:(lia)) as (Hlen & _).
    simpl. lia.
  - apply cle_total in Hle.
    destruct (walk_pruned ene Hwf Hfin Hnn map Hat (h ene) best x (h ene - 1) czero [])
      as (t & p & Hwk & _); try (done || lia).
    exists t, p. split; [done |].
    apply (walk_length ene Hwf Hfin Hnn map Hat) in Hwk; simpl in Hwk; lia.
Qed.
End Theorems.

(** ** Non-finite energies, on Rust's [float] *)

Section Nonfinite.

(** C13. On non-finite float energies the direction of a table cell can
    point out of the image.  In column 0, below two infinite energies,
    [min == l] holds ([inf == inf], [l] being [float::infinity] there)
    and the cell points Left.  In the last column, below two NaN
    energies, the minimum is the [float::infinity] standing for the
    missing right neighbour, and the cell points Right.  The walk then
    moves [cx] outside [[0, width)]. *)
Theorem dp_cell_points_outside (ene : Matrix float) x y my :
  wf ene -> 2 <= w ene -> 0 < y < h ene -> at_ ene x y = Ok my ->
  (x = 0 -> at_ ene 0 (y - 1) = Ok infinity -> at_ ene 1 (y - 1) = Ok infinity ->
     dp_cell (w ene) ene x y = Ok ((my + infinity)%float, Some Left)) /\
  (x = w ene - 1 -> at_ ene (x - 1) (y - 1) = Ok nan -> at_ ene x (y - 1) = Ok nan ->
     dp_cell (w ene) ene x y = Ok ((my + infinity)%float, Some Right)).
Proof.
  intros Hwf Hw Hy Hmy. pose proof (wf_fits_w ene Hwf) as Hfw.
  unfold dp_cell. rewrite decide_False by lia. rewrite usub_small by (done || lia).
  split; intros -> Hl Ht.
  - rewrite (decide_False (P := 0 < 0)), (decide_True (P := 0 < w ene - 1)) by lia.
    change (0 + 1) with 1. rewrite Hl, Ht. simpl. by rewrite Hmy.
  - rewrite (decide_True (P := 0 < w ene - 1)), (decide_False (P := w ene - 1 < w ene - 1)) by lia.
    rewrite Hl, Ht. simpl. by rewrite Hmy.
Qed.
End Nonfinite.
