(* ===== verification/Ppm.v ===== *)
(** * PPM input and output (src/seam.rs, lines 157-215)

    [round] (lines 157-161) rounds a float through Rust's [as] casts.
    [save_ppm] (lines 164-178) writes the "P3" text format.
    [load_ppm] (lines 181-215) reads it back.

    A file is the list of its bytes ([list ascii]).  The writer is the
    bytes written so far: [write_line] appends a line and its newline.
    The reader is a [Reader]: the bytes not yet read, and the
    end-of-file flag of the C stream under [io::file_reader].  That flag
    is set only when a read runs into the end, so after the last
    newline [eof()] is still false, and the loop of [load_ppm] reads one
    more, empty, line.  The library functions the code calls are
    modelled from their Rust 0.5 definitions: [fmt!] with [%u] and [%d],
    [uint::from_str] (decimal digits only, at least one, the value
    wrapping modulo 2^64), and [str::split_char] (every separator splits,
    so two spaces give an empty field).  [read_line] converts the line
    with [str::from_bytes], whose [assert is_utf8(v)] is modelled
    ([is_utf8], after Rust 0.5's [utf8_char_width]): a line that is not
    UTF-8 is a fault.  Opening the file and I/O errors are not modelled.

    Rust's [float] is [PrimFloat.float] here, not the numeric interface
    of [Num]: the casts [f as int] (truncation toward zero) and
    [z as float] (round to nearest) are defined through the exact
    binary64 values of [SpecFloat].

    Theorems: printing and parsing a [uint] round-trip, a channel
    [v / 255] survives [* 255.0] and [round] exactly for [v <= 255], and
    [load_ppm] inverts [save_ppm] on every image whose channels are such
    multiples, ignoring whatever follows the last pixel; [load_ppm]
    always terminates, and returns well-formed images; an ASCII first
    line other than "P3" is refused; an empty field among the first
    three of a pixel line (two spaces in a row) makes the program fail
    at [option::get]. *)

From S2P Require Import Prelude Num Matrix Color.
From Stdlib Require Import PrimFloat SpecFloat Ascii.
From Stdlib Require String.
From Stdlib.Floats Require FloatOps.

#[export] Instance ascii_eq_dec : EqDecision ascii := ascii_dec.

(** ** Casts and [round] *)

(** [f as int]: LLVM's [fptosi], truncation toward zero.  Exact for the
    finite floats of magnitude below 2^63.  On NaN, the infinities and
    larger magnitudes LLVM gives an undefined value; the model gives 0
    on NaN and the infinities, and the exact truncation otherwise. *)
Definition as_int (f : float) : Z :=
  match FloatOps.Prim2SF f with
  | S754_finite s m e =>
      let z := if (0 <=? e)%Z then Z.shiftl (Zpos m) e else Z.shiftr (Zpos m) (- e) in
      if s then (- z)%Z else z
  | _ => 0%Z
  end.

(** [z as float] for an [int] or a [uint]: rounded to nearest, ties to
    even. *)
Definition Z_as_float (z : Z) : float :=
  FloatOps.SF2Prim (binary_normalize FloatOps.prec FloatOps.emax z 0 false).

Definition uint_as_float (n : nat) : float := Z_as_float (Z.of_nat n).

(** Lines 157-161. *)
Definition round (f : float) : Z :=
  let rem := (f - Z_as_float (as_int f))%float in
  if (0.5 <=? rem)%float then (as_int f + 1)%Z else as_int f.

(** ** Text *)

Definition nl : ascii := "010"%char.
Definition sp : ascii := " "%char.
Definition str (s : String.string) : list ascii := String.list_ascii_of_string s.

(** The string literals of the code. *)
Module Lit.
Import String.
Definition P3 : string := "P3".
Definition max255 : string := "255".
Definition not_p3 : string := "image is not of type P3".
Definition short : string := "image doesn't contain enough pixel data".
End Lit.

(** Decimal digits of [n], in front of [acc]. *)
Definition digit_char (d : nat) : ascii := ascii_of_nat (48 + d).

Fixpoint fmt_digits (fuel n : nat) (acc : list ascii) : list ascii :=
  match fuel with
  | O => acc
  | S fuel' =>
      let acc := digit_char (n mod 10) :: acc in
      if decide (n < 10) then acc else fmt_digits fuel' (n / 10) acc
  end.

(** [fmt!("%u", n)]. *)
Definition fmt_u (n : nat) : list ascii := fmt_digits (S n) n [].

(** [fmt!("%d", z)]. *)
Definition fmt_d (z : Z) : list ascii :=
  if decide (z < 0)%Z then "-"%char :: fmt_u (Z.to_nat (- z)) else fmt_u (Z.to_nat z).

(** [char::to_digit(c, 10)]. *)
Definition char_digit (c : ascii) : option nat :=
  let n := nat_of_ascii c in
  if decide (48 <= n < 58) then Some (n - 48) else None.

Arguments digit_char : simpl never.
Arguments char_digit : simpl never.

Fixpoint parse_digits (s : list ascii) (acc : nat) : option nat :=
  match s with
  | [] => Some acc
  | c :: s' => d ← char_digit c; parse_digits s' (acc * 10 + d)
  end.

(** [uint::from_str]: [None] on the empty string and on any character
    that is not a decimal digit; the value wraps modulo 2^64. *)
Definition uint_from_str (s : list ascii) : option nat :=
  match s with
  | [] => None
  | _ => n ← parse_digits s 0; Some (uwrap n)
  end.

(** [str::split_char(s, sep)]: the fields between the separators, empty
    ones included. *)
Fixpoint split_char (sep : ascii) (s : list ascii) : list (list ascii) :=
  match s with
  | [] => [[]]
  | c :: s' =>
      let fields := split_char sep s' in
      if decide (c = sep) then [] :: fields
      else match fields with
           | f :: fs => (c :: f) :: fs
           | [] => [[c]]
           end
  end.

(** ** The reader and the writer *)

Record Reader := mkReader {
  rest : list ascii;    (** the bytes not read yet *)
  eof_flag : bool       (** the stream's end-of-file indicator *)
}.

(** The bytes up to the first newline, the bytes after it, and whether
    the end was reached first. *)
Fixpoint take_line (s : list ascii) : list ascii * list ascii * bool :=
  match s with
  | [] => ([], [], true)
  | c :: s' =>
      if decide (c = nl) then ([], s', false)
      else let '(l, r, e) := take_line s' in (c :: l, r, e)
  end.

(** The bytes [rd.read_line()] reads: up to a newline or the end of the
    file. *)
Definition next_line (rd : Reader) : list ascii * Reader :=
  let '(l, r, e) := take_line (rest rd) in (l, mkReader r (eof_flag rd || e)).

(** [str::utf8_char_width(b)]: the length of the UTF-8 sequence that a
    byte starts, 0 for a byte that cannot start one. *)
Definition utf8_char_width (b : ascii) : nat :=
  let n := nat_of_ascii b in
  if decide (n < 128) then 1 else if decide (n < 192) then 0
  else if decide (n < 224) then 2 else if decide (n < 240) then 3
  else if decide (n < 248) then 4 else if decide (n < 252) then 5 else 6.

(** [k] continuation bytes ([v[i] & 192 == 128]) at the front of [s]:
    the bytes after them. *)
Fixpoint utf8_conts (k : nat) (s : list ascii) : option (list ascii) :=
  match k, s with
  | O, _ => Some s
  | S k', c :: s' =>
      if decide (128 <= nat_of_ascii c < 192) then utf8_conts k' s' else None
  | S _, [] => None
  end.

Fixpoint is_utf8_go (fuel : nat) (s : list ascii) : bool :=
  match s, fuel with
  | [], _ => true
  | _ :: _, O => false
  | c :: s', S fuel' =>
      let k := utf8_char_width c in
      if decide (k = 0) then false
      else match utf8_conts (k - 1) s' with
           | Some s'' => is_utf8_go fuel' s''
           | None => false
           end
  end.

(** [str::is_utf8]: every sequence starts with a start byte and has its
    continuation bytes.  Each step consumes a byte or more, so
    [length s] steps suffice. *)
Definition is_utf8 (s : list ascii) : bool := is_utf8_go (length s) s.

(** [rd.read_line()]: the bytes of [next_line], made a string by
    [str::from_bytes], which asserts that they are UTF-8. *)
Definition read_line (rd : Reader) : result (list ascii * Reader) :=
  let '(l, rd') := next_line rd in
  if is_utf8 l then Ok (l, rd') else Fault AssertFailed.

(** A 7-bit byte. *)
Definition ascii7 (c : ascii) : bool := nat_of_ascii c <? 128.

(** [rd.eof()]. *)
Definition eof (rd : Reader) : bool := eof_flag rd.

(** [wr.write_line(s)], on the bytes written so far. *)
Definition write_line (out : list ascii) (s : list ascii) : list ascii :=
  out ++ s ++ [nl].

(** ** [save_ppm] *)

(** Lines 172-174: the line of one pixel. *)
Definition pixel_line (c : Color float) : list ascii :=
  let color := Color.map c (fun c => c * 255)%float in
  let cs := (round (r color), round (g color), round (b color)) in
  fmt_d cs.1.1 ++ sp :: fmt_d cs.1.2 ++ sp :: fmt_d cs.2.

(** Lines 167-169: the header. *)
Definition ppm_header (self : Image float) : list ascii :=
  let out := write_line [] (str Lit.P3) in
  let out := write_line out (fmt_u (w self) ++ sp :: fmt_u (h self)) in
  write_line out (str Lit.max255).

(** Lines 165-177: the file's contents. *)
Definition save_ppm (self : Image float) : result (list ascii) :=
  for_range 0 (h self) (fun y out =>
    for_range 0 (w self) (fun x out =>
      c ← at_ self x y;
      Ok (write_line out (pixel_line c))) out) (ppm_header self).

(** ** [load_ppm] *)

(** [Result<Image, ~str>]. *)
Inductive Res (A : Type) :=
  | ROk (a : A)
  | RErr (msg : String.string).
Arguments ROk {A} a.
Arguments RErr {A} msg.

(** Lines 195-209: triple [i] of the fields [cs] of a line, on the state
    [(image, cx, cy)]; [inl] is the [return] of line 207. *)
Definition load_triple (max : float) (cs : list (list ascii)) (i : nat)
    (st : Image float * nat * nat) : result (Image float + Image float * nat * nat) :=
  let '(image, cx, cy) := st in
  s0 ← index cs (3 * i); u0 ← unwrap (uint_from_str s0);
  s1 ← index cs (3 * i + 1); u1 ← unwrap (uint_from_str s1);
  s2 ← index cs (3 * i + 2); u2 ← unwrap (uint_from_str s2);
  let color := mkColor (uint_as_float u0 / max)%float (uint_as_float u1 / max)%float
                       (uint_as_float u2 / max)%float in
  image ← set image cx cy color;
  let cx := uadd cx 1 in
  if decide (cx = width image) then
    let cy := uadd cy 1 in
    if decide (cy = height image) then Ok (inl image) else Ok (inr (image, 0, cy))
  else Ok (inr (image, cx, cy)).

(** Lines 192-213: the [while !rd.eof()] loop; [fuel] bounds its
    iterations. *)
Fixpoint load_loop (fuel : nat) (max : float) (rd : Reader)
    (st : Image float * nat * nat) : result (Res (Image float)) :=
  match fuel with
  | O => Fault OutOfFuel
  | S fuel' =>
      if eof rd then Ok (RErr Lit.short)
      else
        '(line, rd) ← read_line rd;
        let cs := split_char sp line in
        x ← for_range_ret 0 (length cs / 3) (load_triple max cs) st;
        match x with
        | inl image => Ok (ROk image)
        | inr st => load_loop fuel' max rd st
        end
  end.

(** Lines 181-215.  Every iteration of the loop consumes a byte or sets
    the end-of-file flag, so [length file + 2] iterations suffice. *)
Definition load_ppm (file : list ascii) : result (Res (Image float)) :=
  let rd := mkReader file false in
  '(l1, rd) ← read_line rd;
  if decide (l1 = str Lit.P3) then
    '(l2, rd) ← read_line rd;
    let dims := split_char sp l2 in
    d0 ← index dims 0; wd ← unwrap (uint_from_str d0);
    d1 ← index dims 1; ht ← unwrap (uint_from_str d1);
    let image := new_image wd ht in
    '(l3, rd) ← read_line rd;
    mx ← unwrap (uint_from_str l3);
    load_loop (S (S (length (rest rd)))) (uint_as_float mx) rd (image, 0, 0)
  else Ok (RErr Lit.not_p3).

(** ** Text lemmas *)

Lemma char_digit_char d : d < 10 -> char_digit (digit_char d) = Some d.
Proof. intros Hd. do 10 (destruct d as [|d]; [reflexivity |]). lia. Qed.

(** The characters [fmt_u] prints are digits. *)
Definition is_digit (c : ascii) : Prop := is_Some (char_digit c).

Lemma fmt_digits_digits fuel n acc :
  Forall is_digit acc -> Forall is_digit (fmt_digits fuel n acc).
Proof.
  revert n acc. induction fuel as [|f IH]; intros n acc Hacc; simpl; [done |].
  assert (Hd : is_digit (digit_char (n mod 10))).
  { unfold is_digit. rewrite char_digit_char by (apply Nat.mod_upper_bound; lia). eauto. }
  case_decide; [by constructor | apply IH; by constructor].
Qed.

Lemma fmt_u_digits n : Forall is_digit (fmt_u n).
Proof. apply fmt_digits_digits. constructor. Qed.

Lemma fmt_digits_grow fuel n acc : length acc < length (fmt_digits (S fuel) n acc).
Proof.
  revert n acc. induction fuel as [|f IH]; intros n acc; simpl; case_decide; simpl; try lia.
  specialize (IH (n / 10) (digit_char (n mod 10) :: acc)). simpl in IH. lia.
Qed.

Lemma fmt_u_nonempty n : fmt_u n <> [].
Proof. intros E. pose proof (fmt_digits_grow n n []) as Hg. unfold fmt_u in E. rewrite E in Hg. simpl in Hg. lia. Qed.

(** Reading the digits back gives the number printed. *)
Lemma fmt_digits_parse fuel n acc :
  n < fuel -> parse_digits (fmt_digits fuel n acc) 0 = parse_digits acc n.
Proof.
  revert n acc. induction fuel as [|f IH]; intros n acc Hn; [lia |].
  cbn [fmt_digits]. case_decide.
  - cbn [parse_digits]. rewrite char_digit_char by (apply Nat.mod_upper_bound; lia).
    cbn [mbind option_bind]. by rewrite Nat.mod_small.
  - rewrite IH by (pose proof (Nat.div_lt n 10); lia). cbn [parse_digits].
    rewrite char_digit_char by (apply Nat.mod_upper_bound; lia).
    cbn [mbind option_bind]. f_equal. pose proof (Nat.div_mod_eq n 10). lia.
Qed.

(** [%u] then [uint::from_str] gives back a [uint]. *)
Lemma uint_from_str_fmt_u n : fits_uint n -> uint_from_str (fmt_u n) = Some n.
Proof.
  intros Hfit. pose proof (fmt_u_nonempty n) as Hne. unfold uint_from_str.
  destruct (fmt_u n) eqn:E; [done |]. rewrite <- E. unfold fmt_u.
  rewrite fmt_digits_parse by lia. cbn. by rewrite uwrap_small.
Qed.

Lemma digit_not_sep c : is_digit c -> c <> sp /\ c <> nl.
Proof. intros [d Hd]. split; intros ->; discriminate Hd. Qed.

Lemma fmt_u_no_sep n : (sp ∉ fmt_u n) /\ (nl ∉ fmt_u n).
Proof.
  pose proof (fmt_u_digits n) as Hd. rewrite Forall_forall in Hd.
  split; intros Hin; apply Hd in Hin; apply digit_not_sep in Hin; tauto.
Qed.

(** A field without separator splits to itself. *)
Lemma split_char_field sep l : sep ∉ l -> split_char sep l = [l].
Proof.
  induction l as [|c l IH]; intros Hl; [done |]. apply not_elem_of_cons in Hl as [Hc Hl].
  cbn [split_char]. rewrite IH by done. by rewrite decide_False.
Qed.

Lemma split_char_app sep l s :
  sep ∉ l -> split_char sep (l ++ sep :: s) = l :: split_char sep s.
Proof.
  induction l as [|c l IH]; intros Hl; cbn [split_char app]; [by rewrite decide_True |].
  apply not_elem_of_cons in Hl as [Hc Hl]. rewrite IH by done. by rewrite decide_False.
Qed.

(** A line without newline, then a newline. *)
Lemma take_line_app l s : nl ∉ l -> take_line (l ++ nl :: s) = (l, s, false).
Proof.
  induction l as [|c l IH]; intros Hl; cbn [take_line app]; [by rewrite decide_True |].
  apply not_elem_of_cons in Hl as [Hc Hl]. rewrite IH by done. by rewrite decide_False.
Qed.

(** [read_line] consumes a byte or reaches the end. *)
Lemma take_line_progress s l r e :
  take_line s = (l, r, e) -> (e = false /\ length r < length s) \/ (e = true /\ r = []).
Proof.
  revert l r e. induction s as [|c s IH]; intros l r e Ht; cbn [take_line] in Ht.
  - injection Ht as <- <- <-. by right.
  - case_decide.
    + injection Ht as <- <- <-. left. simpl. lia.
    + destruct (take_line s) as [[l' r'] e'] eqn:E. injection Ht as <- <- <-.
      destruct (IH _ _ _ eq_refl) as [[-> Hlt] | [-> ->]]; [left; simpl; lia | by right].
Qed.

(** ASCII text passes the UTF-8 check. *)
Lemma is_utf8_go_ascii fuel s :
  length s <= fuel -> forallb ascii7 s = true -> is_utf8_go fuel s = true.
Proof.
  revert s. induction fuel as [|f IH]; intros [|c s] Hlen Ha; try done.
  - simpl in Hlen. lia.
  - cbn [forallb] in Ha. apply andb_true_iff in Ha as [Hc Ha].
    unfold ascii7 in Hc. apply Nat.ltb_lt in Hc.
    cbn [is_utf8_go]. unfold utf8_char_width. rewrite (decide_True (P := nat_of_ascii c < 128)) by done.
    cbn. apply IH; [simpl in Hlen; lia | done].
Qed.

Lemma is_utf8_ascii s : forallb ascii7 s = true -> is_utf8 s = true.
Proof. apply is_utf8_go_ascii. lia. Qed.

(** [read_line] on a line of ASCII text followed by a newline. *)
Lemma read_line_text l s e :
  nl ∉ l -> forallb ascii7 l = true ->
  read_line (mkReader (l ++ nl :: s) e) = Ok (l, mkReader s (e || false)).
Proof.
  intros Hnl Ha. unfold read_line, next_line. cbn [rest eof_flag].
  rewrite take_line_app by done. cbv beta iota zeta. by rewrite is_utf8_ascii.
Qed.

(** [read_line] fails only on the UTF-8 assertion. *)
Lemma read_line_fault rd f : read_line rd = Fault f -> f = AssertFailed.
Proof.
  unfold read_line. destruct (next_line rd) as [l rd']. by destruct (is_utf8 l); intros [= <-].
Qed.

Lemma digit_ascii7 c : is_digit c -> ascii7 c = true.
Proof.
  unfold is_digit, char_digit, ascii7. intros [d Hd].
  destruct (decide (48 <= nat_of_ascii c < 58)); [apply Nat.ltb_lt; lia | discriminate].
Qed.

Lemma fmt_u_ascii n : forallb ascii7 (fmt_u n) = true.
Proof.
  apply forallb_forall. intros c Hc. apply digit_ascii7.
  pose proof (fmt_u_digits n) as Hd. rewrite List.Forall_forall in Hd. by apply Hd.
Qed.

Lemma fields_ascii a b c : forallb ascii7 (fmt_u a ++ sp :: fmt_u b ++ sp :: fmt_u c) = true.
Proof.
  change (ascii7 sp) with true.
  rewrite forallb_app, fmt_u_ascii. cbn [forallb andb].
  rewrite forallb_app, fmt_u_ascii. cbn [forallb andb]. apply fmt_u_ascii.
Qed.

(** ** Termination of [load_ppm] *)

(** The bytes left, plus one while the end has not been seen. *)
Definition reader_measure (rd : Reader) : nat :=
  length (rest rd) + (if eof rd then 0 else 1).

Lemma read_line_measure rd l rd' :
  eof rd = false -> read_line rd = Ok (l, rd') -> reader_measure rd' < reader_measure rd.
Proof.
  unfold read_line, next_line, reader_measure, eof. intros He Hr.
  destruct (take_line (rest rd)) as [[l0 r] e] eqn:Ht. cbv beta iota zeta in Hr.
  destruct (is_utf8 l0); [injection Hr as <- <- | discriminate]. simpl.
  rewrite He. destruct (take_line_progress _ _ _ _ Ht) as [[-> Hlt] | [-> ->]]; simpl; lia.
Qed.

(** One triple faults only on a bad field or a write outside the image. *)
Lemma load_triple_fault max cs i st f :
  load_triple max cs i st = Fault f -> f = IndexOutOfBounds \/ f = UnwrapNone.
Proof.
  destruct st as [[image cx] cy].
  unfold load_triple, index, of_option, unwrap, set, mbind, result_bind.
  repeat case_match; intros; simplify_eq; auto.
Qed.

Lemma load_loop_no_fuel_fault fuel max rd st :
  reader_measure rd < fuel -> load_loop fuel max rd st <> Fault OutOfFuel.
Proof.
  revert rd st. induction fuel as [|fuel IH]; intros rd st Hm; [lia |]. cbn [load_loop].
  destruct (eof rd) eqn:He; [done |].
  destruct (read_line rd) as [[line rd']|f] eqn:Hr;
    [| apply read_line_fault in Hr; by subst f].
  pose proof (read_line_measure rd line rd' He Hr) as Hlt. rewrite bind_Ok. cbv beta iota zeta.
  destruct (for_range_ret _ _ _ _) as [[image|st']|f] eqn:Hf; simpl; [done | apply IH; lia |].
  intros [= ->]. unfold for_range_ret in Hf.
  apply (for_go_ret_fault (fun f => f = IndexOutOfBounds \/ f = UnwrapNone)) in Hf;
    [destruct Hf; discriminate | apply load_triple_fault].
Qed.

(** ** [save_ppm] as a closed form *)

(** A pixel's line with its newline. *)
Definition pixel_text (c : Color float) : list ascii := pixel_line c ++ [nl].

Lemma concat_map_snoc {A B} (f : A -> list B) l a :
  concat (map f (l ++ [a])) = concat (map f l) ++ f a.
Proof. by rewrite map_app, concat_app; simpl; rewrite app_nil_r. Qed.

(** The file [save_ppm] writes: the header, then the lines of the pixels
    in the order of the data vector. *)
Lemma save_ppm_spec (img : Image float) :
  wf img -> save_ppm img = Ok (ppm_header img ++ concat (map pixel_text (data img))).
Proof.
  intros Hwf. pose proof Hwf as (Hlen & _). unfold save_ppm.
  set (D := data img). set (hd := ppm_header img).
  set (P := fun k out => out = hd ++ concat (map pixel_text (take k D))).
  match goal with |- for_range _ _ ?body _ = _ =>
    destruct (for_range_inv (fun y out => P (y * w img) out) body 0 (h img) hd)
      as (out & -> & Hout) end; [lia | unfold P; by rewrite take_0, app_nil_r | |].
  - intros y out Hy Hout.
    match goal with |- exists s', for_range _ _ ?body _ = _ /\ _ =>
      destruct (for_range_inv (fun x out => P (y * w img + x) out) body 0 (w img) out)
        as (out' & -> & Hout') end; [lia | by rewrite Nat.add_0_r | |].
    + intros x o Hx Ho. pose proof (cell_index_lt img x y Hwf ltac:(lia) ltac:(lia)) as Hi.
      destruct (index_lt D (y * w img + x) Hi) as (c & _ & Hc).
      exists (write_line o (pixel_line c)). split.
      * unfold at_. rewrite index_exact by (done || lia). unfold index, D in *. by rewrite Hc.
      * unfold P. rewrite Nat.add_succ_r, (take_S_r _ _ c), concat_map_snoc by done.
        rewrite Ho. unfold write_line, pixel_text. by rewrite !app_assoc.
    + eexists. split; [done |]. by replace (S y * w img) with (y * w img + w img) by lia.
  - unfold P in Hout. rewrite Hout, take_ge; [done | unfold D; rewrite Hlen; lia].
Qed.

(** ** [load_ppm] reads back what [save_ppm] writes *)

(** The channel value [load_ppm] makes of the integer [v] after the header
    "255". *)
Definition channel (v : nat) : float := (uint_as_float v / uint_as_float 255)%float.

(** A colour that a 255-based file can hold exactly. *)
Definition exact_color (c : Color float) : Prop :=
  exists v0 v1 v2, v0 <= 255 /\ v1 <= 255 /\ v2 <= 255 /\
    c = mkColor (channel v0) (channel v1) (channel v2).

Definition exact_image (img : Image float) : Prop := Forall exact_color (data img).

(** Checked on the 256 values: [channel v * 255.0] rounds back to [v]. *)
Lemma channel_round_all :
  forallb (fun v => Z.eqb (round (channel v * 255)%float) (Z.of_nat v)) (seq 0 256) = true.
Proof. vm_compute. reflexivity. Qed.

Lemma channel_round v : v <= 255 -> round (channel v * 255)%float = Z.of_nat v.
Proof.
  intros Hv. pose proof channel_round_all as Hall. rewrite forallb_forall in Hall.
  apply Z.eqb_eq, Hall, in_seq. lia.
Qed.

Lemma fmt_d_of_nat v : fmt_d (Z.of_nat v) = fmt_u v.
Proof. unfold fmt_d. rewrite decide_False by lia. by rewrite Nat2Z.id. Qed.

(** The line of an exact pixel: its three integers. *)
Lemma pixel_line_channels v0 v1 v2 :
  v0 <= 255 -> v1 <= 255 -> v2 <= 255 ->
  pixel_line (mkColor (channel v0) (channel v1) (channel v2)) =
    fmt_u v0 ++ sp :: fmt_u v1 ++ sp :: fmt_u v2.
Proof.
  intros. unfold pixel_line. cbn [Color.map r g b fst snd].
  by rewrite !channel_round, !fmt_d_of_nat.
Qed.

Lemma fields_no_nl a b c : nl ∉ fmt_u a ++ sp :: fmt_u b ++ sp :: fmt_u c.
Proof.
  pose proof (fmt_u_no_sep a). pose proof (fmt_u_no_sep b). pose proof (fmt_u_no_sep c).
  intros Hin. apply elem_of_app in Hin as [Hin|Hin]; [tauto |].
  apply elem_of_cons in Hin as [Hin|Hin]; [discriminate |].
  apply elem_of_app in Hin as [Hin|Hin]; [tauto |].
  apply elem_of_cons in Hin as [Hin|Hin]; [discriminate | tauto].
Qed.

Lemma split_fields a b c :
  split_char sp (fmt_u a ++ sp :: fmt_u b ++ sp :: fmt_u c) = [fmt_u a; fmt_u b; fmt_u c].
Proof. rewrite !split_char_app, split_char_field; try apply fmt_u_no_sep. done. Qed.

(** Writing pixel [k] of [D] into an output that holds the pixels
    before [k], then blanks. *)
Lemma insert_take_replicate {A} (D : list A) k c n (b : A) :
  D !! k = Some c ->
  <[k := c]> (take k D ++ replicate (S n) b) = take (S k) D ++ replicate n b.
Proof.
  intros Hk. pose proof (lookup_lt_Some _ _ _ Hk) as Hlt.
  rewrite insert_app_r_alt by (rewrite length_take; lia).
  rewrite length_take, Nat.min_l, Nat.sub_diag by lia. cbn [replicate].
  rewrite (take_S_r _ _ c) by done. by rewrite <- app_assoc.
Qed.

(** [read_line] on the line of an exact pixel. *)
Lemma read_pixel_line v0 v1 v2 s e :
  v0 <= 255 -> v1 <= 255 -> v2 <= 255 ->
  read_line (mkReader (pixel_text (mkColor (channel v0) (channel v1) (channel v2)) ++ s) e) =
    Ok (fmt_u v0 ++ sp :: fmt_u v1 ++ sp :: fmt_u v2, mkReader s (e || false)).
Proof.
  intros. unfold pixel_text. rewrite pixel_line_channels, <- app_assoc by done. cbn [app].
  apply read_line_text; [apply fields_no_nl | apply fields_ascii].
Qed.

(** The triple of an exact pixel, at a cursor inside a well-formed
    image: the pixel is written at [(cx, cy)] and the cursor moves on,
    to the next row at the end of a row; the image is returned after
    its last pixel.  No [uint] operation wraps here. *)
Lemma load_triple_exact (image : Image float) cx cy v0 v1 v2 :
  wf image -> cx < w image -> cy < h image -> v0 <= 255 -> v1 <= 255 -> v2 <= 255 ->
  load_triple (uint_as_float 255) [fmt_u v0; fmt_u v1; fmt_u v2] 0 (image, cx, cy) =
    let image' := mkMatrix (<[cy * w image + cx := mkColor (channel v0) (channel v1) (channel v2)]>
                            (data image)) (w image) (h image) in
    Ok (if decide (cx + 1 = w image) then
          if decide (cy + 1 = h image) then inl image' else inr (image', 0, cy + 1)
        else inr (image', cx + 1, cy)).
Proof.
  intros Hwf Hcx Hcy H0 H1 H2. pose proof Hwf as (_ & _ & Hfw & Hfh).
  unfold load_triple. cbn [index of_option lookup list_lookup Nat.mul Nat.add].
  repeat (rewrite bind_Ok || (rewrite uint_from_str_fmt_u by (unfold fits_uint, UINT_MOD; lia))
          || (progress cbn [unwrap])).
  rewrite set_Ok by done. rewrite bind_Ok. cbn [width height w h].
  rewrite uadd_small by (eapply fits_uint_le; [| exact Hfw]; lia).
  destruct (decide (cx + 1 = w image)); [| done].
  rewrite uadd_small by (eapply fits_uint_le; [| exact Hfh]; lia).
  by destruct (decide (cy + 1 = h image)).
Qed.

(** The loop of [load_ppm] on the pixel lines of [ps], the pixels of
    [img] from index [k] on, followed by any bytes [tail], with the
    pixels before [k] already in [image] and the cursor [(cx, cy)] at
    pixel [k]: it reads the pixels, returns [img], and never reads
    [tail]. *)
Lemma load_loop_saved (img : Image float) ps tail k cx cy (image : Image float) fuel :
  wf img -> Forall exact_color ps -> ps <> [] -> drop k (data img) = ps ->
  data image = take k (data img) ++ replicate (length ps) black ->
  w image = w img -> h image = h img -> cy * w img + cx = k -> cx < w img ->
  length (concat (map pixel_text ps) ++ tail) < fuel ->
  load_loop fuel (uint_as_float 255) (mkReader (concat (map pixel_text ps) ++ tail) false)
    (image, cx, cy) = Ok (ROk img).
Proof.
  intros Hwf. pose proof Hwf as (Hlen & Hfit & Hfw & Hfh).
  revert k cx cy image fuel.
  induction ps as [|c ps IH]; intros k cx cy image fuel Hex Hne Hdrop Himg Hw Hh Hk Hcx Hfuel; [done |].
  apply Forall_cons in Hex as [(v0 & v1 & v2 & H0 & H1 & H2 & Ec) Hex].
  destruct fuel as [|fuel]; [simpl in Hfuel; lia |].
  assert (Hf' : length (concat (map pixel_text ps) ++ tail) < fuel).
  { cbn [map concat] in Hfuel. unfold pixel_text at 1 in Hfuel.
    rewrite !length_app in *. cbn [length] in Hfuel. lia. }
  assert (Hdk : data img !! k = Some c) by (rewrite <- (Nat.add_0_r k), <- lookup_drop, Hdrop; done).
  assert (Hps : drop (S k) (data img) = ps) by (rewrite (drop_S _ c) in Hdrop by done; by injection Hdrop).
  assert (Hlt : k < length (data img)) by (by apply lookup_lt_Some in Hdk).
  assert (Hlps : length ps = length (data img) - S k) by (rewrite <- Hps, length_drop; lia).
  assert (Hcy : cy < h img) by nia.
  assert (Hwfi : wf image).
  { split_and!; [| rewrite ?Hw, ?Hh; done..].
    rewrite Himg, length_app, length_take, length_replicate, Hw, Hh. simpl. lia. }
  cbn [load_loop eof eof_flag map concat]. rewrite <- app_assoc, Ec, read_pixel_line by done.
  rewrite bind_Ok. cbv beta iota zeta. cbn [orb]. rewrite split_fields. change (length [_; _; _] / 3) with 1. rewrite for_range_ret_one.
  rewrite load_triple_exact by (rewrite ?Hw, ?Hh; done). rewrite bind_Ok. cbv zeta.
  rewrite <- Ec, Hw, Hh, Hk, Himg. cbn [length]. rewrite insert_take_replicate by done.
  destruct (decide (cx + 1 = w img)) as [Hx|Hx];
    [destruct (decide (cy + 1 = h img)) as [Hy|Hy] |]; cbn match.
  - assert (ps = []) as -> by (apply length_zero_iff_nil; nia).
    rewrite take_ge by nia. cbn [replicate]. rewrite app_nil_r. by destruct img.
  - apply (IH (S k)); cbn [data w h]; try (done || nia). intros ->. simpl in Hlps. nia.
  - apply (IH (S k)); cbn [data w h]; try (done || nia). intros ->. simpl in Hlps. nia.
Qed.

(** The header as text. *)
Lemma ppm_header_text (img : Image float) s :
  ppm_header img ++ s =
    str Lit.P3 ++ nl :: (fmt_u (w img) ++ sp :: fmt_u (h img)) ++ nl :: str Lit.max255 ++ nl :: s.
Proof. unfold ppm_header, write_line. rewrite <- !app_assoc. reflexivity. Qed.

Lemma dims_no_nl a b : nl ∉ fmt_u a ++ sp :: fmt_u b.
Proof.
  pose proof (fmt_u_no_sep a). pose proof (fmt_u_no_sep b).
  intros Hin. apply elem_of_app in Hin as [Hin|Hin]; [tauto |].
  apply elem_of_cons in Hin as [Hin|Hin]; [discriminate | tauto].
Qed.

Lemma lit_no_nl : (nl ∉ str Lit.P3) /\ (nl ∉ str Lit.max255).
Proof. split; apply (bool_decide_unpack _); vm_compute; reflexivity. Qed.

Lemma lit_ascii : forallb ascii7 (str Lit.P3) = true /\ forallb ascii7 (str Lit.max255) = true.
Proof. split; reflexivity. Qed.

Lemma dims_ascii a b : forallb ascii7 (fmt_u a ++ sp :: fmt_u b) = true.
Proof.
  change (ascii7 sp) with true.
  rewrite forallb_app, fmt_u_ascii. cbn [forallb andb]. apply fmt_u_ascii.
Qed.

(** The header: "P3", then the width and height, then the maximum,
    each printed by [%u]; [load_ppm] parses them and runs its loop on the
    rest, from a black image of that size. *)
Lemma load_ppm_header wd ht mx s :
  fits_uint wd -> fits_uint ht -> fits_uint mx ->
  load_ppm (str Lit.P3 ++ nl :: (fmt_u wd ++ sp :: fmt_u ht) ++ nl :: fmt_u mx ++ nl :: s) =
    load_loop (S (S (length s))) (uint_as_float mx) (mkReader s false) (new_image wd ht, 0, 0).
Proof.
  intros Hwd Hht Hmx. unfold load_ppm.
  rewrite read_line_text by (apply lit_no_nl || apply lit_ascii).
  rewrite bind_Ok. cbv beta iota zeta. cbn [orb]. rewrite decide_True by done.
  rewrite read_line_text by (apply dims_no_nl || apply dims_ascii).
  rewrite bind_Ok. cbv beta iota zeta. cbn [orb].
  rewrite split_char_app, split_char_field by apply fmt_u_no_sep. cbn [index of_option lookup list_lookup].
  rewrite bind_Ok, uint_from_str_fmt_u by done. cbn [unwrap]. rewrite bind_Ok, bind_Ok.
  rewrite uint_from_str_fmt_u by done. cbn [unwrap]. rewrite bind_Ok.
  rewrite read_line_text by (apply (proj2 (fmt_u_no_sep mx)) || apply fmt_u_ascii).
  rewrite bind_Ok. cbv beta iota zeta. cbn [orb].
  by rewrite uint_from_str_fmt_u by done.
Qed.

Lemma fmt_u_255 : fmt_u 255 = str Lit.max255.
Proof. reflexivity. Qed.

(** [load_ppm] on the text [save_ppm] writes for an exact image with a
    pixel or more, followed by any bytes, gives back the image. *)
Lemma load_ppm_saved (img : Image float) tail :
  wf img -> 0 < w img -> 0 < h img -> exact_image img ->
  load_ppm (ppm_header img ++ concat (map pixel_text (data img)) ++ tail) = Ok (ROk img).
Proof.
  intros Hwf Hw Hh Hex. pose proof Hwf as (Hlen & Hfit & Hfw & Hfh).
  rewrite ppm_header_text, <- fmt_u_255, load_ppm_header
    by (done || unfold fits_uint, UINT_MOD; lia).
  apply (load_loop_saved img (data img) tail 0); try (done || lia).
  - intros E. rewrite E in Hlen. simpl in Hlen. nia.
  - unfold new_image, grow. cbn [data]. by rewrite umul_small, Hlen.
Qed.

(** C6. [load_ppm] reads back what [save_ppm] writes: for a well-formed
    image with at least one pixel whose channels are all of the form
    [v / 255] ([v <= 255], as [load_ppm] makes them from a 255-based
    file), [save_ppm] never faults, and [load_ppm] of its output returns
    the same image, float for float. *)
Theorem load_save_roundtrip (img : Image float) :
  wf img -> 0 < w img -> 0 < h img -> exact_image img ->
  exists file, save_ppm img = Ok file /\ load_ppm file = Ok (ROk img).
Proof.
  intros Hwf Hw Hh Hex. eexists. split; [by apply save_ppm_spec |].
  rewrite <- (app_nil_r (concat _)). by apply load_ppm_saved.
Qed.

(** ** Termination and format errors *)

(** C11. [load_ppm] terminates on every file: the fuel of its [while]
    loop never runs out, whatever the bytes. *)
Theorem load_ppm_terminates (file : list ascii) : load_ppm file <> Fault OutOfFuel.
Proof.
  unfold load_ppm, mbind, result_bind, index, of_option, unwrap.
  repeat case_match; simplify_eq; try discriminate;
    try match goal with Hr : read_line _ = Fault _ |- _ =>
      apply read_line_fault in Hr; subst; discriminate end;
    apply load_loop_no_fuel_fault; unfold reader_measure; destruct (eof _); lia.
Qed.

(** C17. A file whose first line is ASCII text other than "P3" is
    refused with the message "image is not of type P3", and nothing else
    of it is read.  (A first line that is not UTF-8 makes
    [str::from_bytes] fail instead.) *)
Theorem load_ppm_not_p3 (file : list ascii) :
  (take_line file).1.1 <> str Lit.P3 -> forallb ascii7 (take_line file).1.1 = true ->
  load_ppm file = Ok (RErr Lit.not_p3).
Proof.
  intros Hl Ha. unfold load_ppm, read_line, next_line. cbn [rest].
  destruct (take_line file) as [[l r] e]. cbn in Hl, Ha |- *.
  rewrite is_utf8_ascii by done. rewrite bind_Ok. cbv beta iota zeta.
  by rewrite decide_False.
Qed.

(** ** What [load_ppm] returns *)

Lemma uint_from_str_fits s n : uint_from_str s = Some n -> fits_uint n.
Proof.
  unfold uint_from_str, mbind, option_bind. destruct s; [done |].
  destruct (parse_digits _ _); [| done]. intros [= <-]. apply uwrap_fits.
Qed.

(** The image a step of the reading loop carries on with or returns. *)
Definition step_image (x : Image float + Image float * nat * nat) : Image float :=
  match x with inl im => im | inr st => st.1.1 end.

(** A triple only writes a pixel: the image keeps its shape. *)
Lemma load_triple_shape max cs i st x :
  load_triple max cs i st = Ok x -> same_shape (step_image x) st.1.1.
Proof.
  destruct st as [[image cx] cy]. unfold load_triple. intros Hl.
  do 6 (apply bind_Ok_inv in Hl as (? & _ & Hl)). cbv zeta in Hl.
  apply bind_Ok_inv in Hl as (image' & Hs & Hl). apply set_same_shape in Hs.
  unfold width, height in Hl. cbn [fst].
  repeat case_decide; injection Hl as <-; exact Hs.
Qed.

(** The image [load_loop] returns has the shape of the one it started
    from. *)
Lemma load_loop_shape fuel max rd st img :
  load_loop fuel max rd st = Ok (ROk img) -> same_shape img st.1.1.
Proof.
  revert rd st. induction fuel as [|fuel IH]; intros rd st Hl; cbn [load_loop] in Hl; [done |].
  destruct (eof rd); [done |].
  apply bind_Ok_inv in Hl as ([line rd'] & _ & Hl).
  apply bind_Ok_inv in Hl as (x & Hx & Hl). unfold for_range_ret in Hx.
  apply (for_go_ret_preserve (fun st' => same_shape st'.1.1 st.1.1)
           (fun im => same_shape im st.1.1)) in Hx; [| | | done].
  - destruct x as [im|st']; [by injection Hl as <- | rewrite <- Hx; by apply IH in Hl].
  - intros j t t' Ht Hb. apply load_triple_shape in Hb. by rewrite Hb.
  - intros j t r Ht Hb. apply load_triple_shape in Hb. by rewrite Hb.
Qed.

(** C10. Every image [load_ppm] returns is well formed, as long as its
    width times its height fits in a [uint]: it has [width * height]
    pixels.  The width and height come from [uint::from_str], so they
    fit; the vector is the black image [Image(width, height)], and the
    loop only writes pixels of it. *)
Theorem load_ppm_wf file img :
  load_ppm file = Ok (ROk img) -> fits_uint (w img * h img) -> wf img.
Proof.
  unfold load_ppm. intros Hl Hfit.
  apply bind_Ok_inv in Hl as ([l1 rd1] & _ & Hl). case_decide; [| done].
  apply bind_Ok_inv in Hl as ([l2 rd2] & _ & Hl).
  apply bind_Ok_inv in Hl as (d0 & _ & Hl). apply bind_Ok_inv in Hl as (wd & Hwd & Hl).
  apply bind_Ok_inv in Hl as (d1 & _ & Hl). apply bind_Ok_inv in Hl as (ht & Hht & Hl).
  apply bind_Ok_inv in Hl as ([l3 rd3] & _ & Hl). apply bind_Ok_inv in Hl as (mx & _ & Hl).
  apply load_loop_shape in Hl. cbn [fst] in Hl. rewrite Hl.
  pose proof Hl as (Hw & Hh & _). cbn [w h new_image] in Hw, Hh. rewrite Hw, Hh in Hfit.
  apply unwrap_Ok, uint_from_str_fits in Hwd, Hht. by apply new_image_wf.
Qed.

(** C9. Nothing after the last pixel is read: [load_ppm] returns the
    image as soon as its last pixel is read (line 207), so any bytes
    after a file [save_ppm] wrote change nothing. *)
Theorem load_ppm_ignores_tail (img : Image float) file tail :
  wf img -> 0 < w img -> 0 < h img -> exact_image img -> save_ppm img = Ok file ->
  load_ppm (file ++ tail) = Ok (ROk img).
Proof.
  intros Hwf Hw Hh Hex Hs. rewrite save_ppm_spec in Hs by done.
  assert (file = ppm_header img ++ concat (map pixel_text (data img))) as -> by congruence.
  rewrite <- app_assoc. by apply load_ppm_saved.
Qed.

(** ** Fields separated by more than one space *)

(** An empty field among the first three of a pixel line makes the
    first [uint::from_str(...).get()] fail. *)
Lemma load_triple_empty_field max cs st :
  3 <= length cs -> (exists i, i < 3 /\ cs !! i = Some []) ->
  load_triple max cs 0 st = Fault UnwrapNone.
Proof.
  intros Hlen (i & Hi & Hc). destruct st as [[image cx] cy].
  destruct cs as [|c0 [|c1 [|c2 cs]]]; cbn [length] in Hlen; try lia.
  destruct i as [|[|[|i]]]; cbn in Hc; try lia; injection Hc as ->;
    unfold load_triple, index; cbn [of_option lookup list_lookup Nat.mul Nat.add]; rewrite bind_Ok.
  - reflexivity.
  - destruct (uint_from_str c0); reflexivity.
  - destruct (uint_from_str c0); [| reflexivity]. cbn [unwrap]. rewrite !bind_Ok.
    destruct (uint_from_str c1); reflexivity.
Qed.

(** C18. Pixel lines are split on single spaces ([str::split_char(line, ' ')],
    line 194), so two spaces in a row give an empty field, and
    [uint::from_str("")] is [none]: after a well-formed header, a pixel
    line with an empty field among its first three makes the program
    fail at [option::get] instead of reading the pixel or returning an
    error. *)
Theorem load_ppm_empty_field wd ht mx line rest :
  fits_uint wd -> fits_uint ht -> fits_uint mx ->
  nl ∉ line -> forallb ascii7 line = true -> 3 <= length (split_char sp line) ->
  (exists i, i < 3 /\ split_char sp line !! i = Some []) ->
  load_ppm (str Lit.P3 ++ nl :: (fmt_u wd ++ sp :: fmt_u ht) ++ nl :: fmt_u mx ++ nl :: line ++ nl :: rest)
    = Fault UnwrapNone.
Proof.
  intros Hwd Hht Hmx Hnl Ha Hlen Hi. rewrite load_ppm_header by done.
  cbn [load_loop eof eof_flag]. rewrite read_line_text by done. rewrite bind_Ok. cbv beta iota zeta.
  rewrite (for_range_ret_first_fault _ _ _ _ UnwrapNone); [reflexivity | |].
  - apply Nat.div_str_pos. lia.
  - by apply load_triple_empty_field.
Qed.
