(* ===== verification/Main.v ===== *)
(** * [main] (src/seam.rs, lines 217-227)

    The command line [seam <input.ppm> <cols> <output.ppm>]: with fewer
    than three arguments after the program name it prints the usage;
    otherwise it loads the input, carves [cols] seams with [carven] and
    saves the result.  A run is modelled as a function of the argument
    vector and of the file system, given as the contents of each path;
    its effect is the lines printed or the file written.  A load that
    returns [Err] is not reported: [get_ref] fails on it.

    Theorems: [seam in.ppm 0 out.ppm] writes back a file [save_ppm]
    wrote, byte for byte ([main_copy]); an input that [load_ppm]
    refuses with [Err] makes the run fail at [get_ref] before anything
    is printed or written ([main_load_error]). *)

From S2P Require Import Prelude Num Matrix Color Carve Ppm.
From Stdlib Require Import PrimFloat Ascii.

(** The two lines of the usage message. *)
Module MainLit.
Import String.
Definition usage1 : string := "usage: seam <input.ppm> <cols> <output.ppm>".
Definition usage2 : string := "where rows is the number of columns to carve out".
End MainLit.

(** What a run does: print lines, or write a file at a path. *)
Inductive Effect :=
  | Printed (lines : list (list ascii))
  | Written (path : list ascii) (file : list ascii).

(** [result::get_ref]: the value of an [Ok], a failure on an [Err]. *)
Definition get_ref {A} (r : Res A) : result A :=
  match r with ROk a => Ok a | RErr _ => Fault UnwrapErr end.

(** Lines 217-227, on the arguments [args] (the program name first) and
    the file system [fs]. *)
Definition main (args : list (list ascii)) (fs : list ascii -> list ascii) : result Effect :=
  if decide (length args < 4) then Ok (Printed [str MainLit.usage1; str MainLit.usage2])
  else
    input ← index args 1;
    im ← load_ppm (fs input);
    image ← get_ref im;
    cols ← index args 2;
    n ← unwrap (uint_from_str cols);
    carved ← carven image n;
    output ← index args 3;
    file ← save_ppm carved;
    Ok (Written output file).

(** C7. [seam in.ppm 0 out.ppm] copies a file that [save_ppm] wrote:
    for an exact image with a pixel or more, the file written at
    [out.ppm] is the file read, byte for byte. *)
Theorem main_copy (img : Image float) file prog input output fs :
  wf img -> 0 < w img -> 0 < h img -> exact_image img ->
  save_ppm img = Ok file -> fs input = file ->
  main [prog; input; ["0"%char]; output] fs = Ok (Written output file).
Proof.
  intros Hwf Hw Hh Hex Hsave Hfs. unfold main. rewrite decide_False by (simpl; lia).
  cbn [index of_option lookup list_lookup]. rewrite !bind_Ok, Hfs.
  assert (Hf : file = ppm_header img ++ concat (map pixel_text (data img)))
    by (rewrite save_ppm_spec in Hsave by done; congruence).
  assert (H0 : uint_from_str ["0"%char] = Some 0) by reflexivity.
  rewrite Hf, <- (app_nil_r (concat _)), load_ppm_saved by done. rewrite app_nil_r. unfold get_ref. cbn [mbind result_bind].
  rewrite H0. cbn [unwrap carven mbind result_bind]. by rewrite save_ppm_spec.
Qed.

(** C19. An error of [load_ppm] is never reported: whatever [Err] it
    returns for the input file (not "P3", a bad header, too few pixels),
    a run with enough arguments fails at [result::get_ref] (line 223),
    and neither prints the message nor writes anything. *)
Theorem main_load_error args fs input msg :
  4 <= length args -> args !! 1 = Some input -> load_ppm (fs input) = Ok (RErr msg) ->
  main args fs = Fault UnwrapErr.
Proof.
  intros Hlen Hin Hload. unfold main. rewrite decide_False by lia.
  unfold index. rewrite Hin. cbn [of_option]. by rewrite bind_Ok, Hload, bind_Ok.
Qed.
