(* ===== verification/Scenarios.v ===== *)
(** * Witnesses

    The general theorems of the development applied to small concrete
    inputs, with every hypothesis checked by computation ([vm_compute],
    [reflexivity], [lia] or [decide]):
    - with Rust's [float] ([PrimFloat], binary64): the 3x3 image of the
      spec with a white centre pixel, a 2x1 image whose channels a
      255-based file holds exactly, and a 4x2 energy matrix with
      infinite and NaN energies in its first row;
    - with the exact domain [xZ]: a 3x3 energy matrix [trap];
    - PPM files given as lines of text, and command lines. *)

From S2P Require Import Prelude Num Matrix Color Energy SeamFinder Carve Ppm Main.
From Stdlib Require Import PrimFloat Ascii.

Definition blk : Color float := mkColor 0%float 0%float 0%float.
Definition wht : Color float := mkColor 1%float 1%float 1%float.

(** The spec's scenario: a 3x3 black image with a white centre. *)
Definition dot_image : Image float :=
  mkMatrix [blk; blk; blk; blk; wht; blk; blk; blk; blk] 3 3.

(** What carving one seam out of [dot_image] leaves: a black 2x3 image. *)
Definition dot_carved : Image float := new_image 2 3.

(** Energies in the exact domain. *)
Definition trap : Matrix xZ :=
  mkMatrix (List.map XFin [0; 9; 9; 1; 9; 0; 9; 9; 0]%Z) 3 3.

(** Float energies whose first row is infinite on the left and NaN on
    the right. *)
Definition edge_ene : Matrix float :=
  mkMatrix [PrimFloat.infinity; PrimFloat.infinity; PrimFloat.nan; PrimFloat.nan;
            0%float; 0%float; 0%float; 0%float] 4 2.

(** PPM files, as lines. *)
Definition text (ls : list (list ascii)) : list ascii := concat (map (fun l => l ++ [nl]) ls).

Module PpmFiles.
Import String.
(** The spec's scenario: a "P2" file. *)
Definition p2_file := text [str "P2"; str "1 1"; str "255"; str "0 0 0"].
(** A pixel line with two spaces between two channels. *)
Definition two_spaces := str "0  0 0".
(** A one-column image of two black pixels. *)
Definition column_file := text [str "P3"; str "1 2"; str "255"; str "0 0 0"; str "0 0 0"].
(** Command lines. *)
Definition seam := str "seam".
Definition in_ppm := str "in.ppm".
Definition out_ppm := str "out.ppm".
Definition one := str "1".
(** Bytes after the last pixel. *)
Definition junk := str "P3 junk".
End PpmFiles.

(** The image [PpmFiles.column_file] holds. *)
Definition column_img : Image float :=
  mkMatrix [mkColor 0 0 0; mkColor 0 0 0]%float 1 2.

(** A 2x1 image whose channels a 255-based file holds exactly. *)
Definition ppm_img : Image float :=
  mkMatrix [mkColor (channel 0) (channel 7) (channel 255);
            mkColor (channel 255) (channel 128) (channel 1)] 2 1.

(** [wf] of a concrete matrix, by computation. *)
Ltac wf_compute := unfold wf, fits_uint, UINT_MOD; vm_compute; split_and!; reflexivity.

(** ** Witnesses *)

Lemma trap_wf : wf trap.
Proof. wf_compute. Qed.

Lemma trap_ok : energies_ok trap = true.
Proof. vm_compute. reflexivity. Qed.

Lemma dot_image_wf : wf dot_image.
Proof. wf_compute. Qed.

Lemma find_seam_equiv_ref_witness :
  wf trap /\ energies_ok trap = true /\ 0 < h trap /\
  find_seam (w trap) (h trap) trap = Ok (fst (ref_scan trap), rev (snd (ref_scan trap))).
Proof.
  split_and!; [exact trap_wf | exact trap_ok | simpl; lia |].
  apply find_seam_equiv_ref; [exact trap_wf | exact trap_ok | simpl; lia].
Defined.


Lemma walk_terminates_witness :
  wf trap /\ energies_ok trap = true /\ 0 < h trap /\
  exists map, dp_table (w trap) (h trap) trap = Ok map /\
    forall best x, x < w trap ->
      exists t p, walk (h trap) map best x (h trap - 1) czero [] = Ok (t, p) /\
        length p <= h trap.
Proof.
  split_and!; [exact trap_wf | exact trap_ok | simpl; lia |].
  apply walk_terminates; [exact trap_wf | exact trap_ok | simpl; lia].
Defined.

Lemma find_seam_zero_height_witness :
  0 < 2 /\ find_seam 2 0 trap = Fault IndexOutOfBounds.
Proof. split; [lia | apply find_seam_zero_height; lia]. Defined.

Lemma energy_correct_witness :
  wf dot_image /\
  exists m, energy dot_image = Ok m /\ wf m /\ w m = w dot_image /\ h m = h dot_image /\
    forall x y, x < w dot_image -> y < h dot_image ->
      at_ m x y = Ok (energy_spec dot_image x y).
Proof. split; [exact dot_image_wf | apply energy_correct; exact dot_image_wf]. Defined.


Lemma carve_spec_witness :
  wf dot_image /\ 0 < w dot_image /\
  best_seam dot_image = Ok (0%float, [0; 1; 0]) /\
  valid_seam (w dot_image) (h dot_image) [0; 1; 0] = true /\
  exists out, carve dot_image = Ok out /\ wf out /\
    w out = w dot_image - 1 /\ h out = h dot_image /\
    forall x y, x < w dot_image - 1 -> y < h dot_image ->
      at_ out x y = at_ dot_image (carved_src (nth y [0; 1; 0] 0) x) y.
Proof.
  assert (Hv : valid_seam (w dot_image) (h dot_image) [0; 1; 0] = true) by (vm_compute; reflexivity).
  assert (Hb : best_seam dot_image = Ok (0%float, [0; 1; 0])) by (vm_compute; reflexivity).
  split_and!; [exact dot_image_wf | simpl; lia | exact Hb | exact Hv |].
  apply (carve_spec dot_image 0%float); [exact dot_image_wf | simpl; lia | exact Hb | exact Hv].
Defined.





Lemma ppm_img_wf : wf ppm_img.
Proof. wf_compute. Qed.

Lemma ppm_img_exact : exact_image ppm_img.
Proof.
  repeat constructor.
  - exists 0, 7, 255. split_and!; [lia.. | reflexivity].
  - exists 255, 128, 1. split_and!; [lia.. | reflexivity].
Qed.

Lemma load_save_roundtrip_witness :
  wf ppm_img /\ 0 < w ppm_img /\ 0 < h ppm_img /\ exact_image ppm_img /\
  exists file, save_ppm ppm_img = Ok file /\ load_ppm file = Ok (ROk ppm_img).
Proof.
  split_and!; [exact ppm_img_wf | simpl; lia | simpl; lia | exact ppm_img_exact |].
  apply load_save_roundtrip; [exact ppm_img_wf | simpl; lia | simpl; lia | exact ppm_img_exact].
Defined.

Lemma load_ppm_not_p3_witness :
  (take_line PpmFiles.p2_file).1.1 <> str Lit.P3 /\
  forallb ascii7 (take_line PpmFiles.p2_file).1.1 = true /\
  load_ppm PpmFiles.p2_file = Ok (RErr Lit.not_p3).
Proof.
  assert (H : (take_line PpmFiles.p2_file).1.1 <> str Lit.P3) by (vm_compute; discriminate).
  assert (Ha : forallb ascii7 (take_line PpmFiles.p2_file).1.1 = true) by (vm_compute; reflexivity).
  split_and!; [exact H | exact Ha | apply load_ppm_not_p3; [exact H | exact Ha]].
Defined.

Lemma main_copy_witness :
  exists file, save_ppm ppm_img = Ok file /\
    main [PpmFiles.seam; PpmFiles.in_ppm; ["0"%char]; PpmFiles.out_ppm] (fun _ => file)
      = Ok (Written PpmFiles.out_ppm file).
Proof.
  assert (Hs : save_ppm ppm_img =
      Ok (ppm_header ppm_img ++ concat (map pixel_text (data ppm_img))))
    by (apply save_ppm_spec; exact ppm_img_wf).
  eexists. split; [exact Hs |].
  apply (main_copy ppm_img);
    [exact ppm_img_wf | simpl; lia | simpl; lia | exact ppm_img_exact | exact Hs | reflexivity].
Defined.

Lemma carven_wf_witness :
  wf dot_image /\ 1 <= w dot_image /\ carven dot_image 1 = Ok dot_carved /\
  (wf dot_carved /\ w dot_carved = w dot_image - 1 /\ h dot_carved = h dot_image).
Proof.
  assert (Hc : carven dot_image 1 = Ok dot_carved) by (vm_compute; reflexivity).
  refine (conj dot_image_wf (conj _ (conj Hc _))); [simpl; lia |].
  apply (carven_wf dot_image dot_carved 1); [exact dot_image_wf | simpl; lia | exact Hc].
Defined.

Lemma load_ppm_ignores_tail_witness :
  exists file, save_ppm ppm_img = Ok file /\
    load_ppm (file ++ PpmFiles.junk) = Ok (ROk ppm_img).
Proof.
  assert (Hs : save_ppm ppm_img =
      Ok (ppm_header ppm_img ++ concat (map pixel_text (data ppm_img))))
    by (apply save_ppm_spec; exact ppm_img_wf).
  eexists. split; [exact Hs |].
  apply (load_ppm_ignores_tail ppm_img);
    [exact ppm_img_wf | simpl; lia | simpl; lia | exact ppm_img_exact | exact Hs].
Defined.

Lemma load_ppm_wf_witness :
  load_ppm PpmFiles.column_file = Ok (ROk column_img) /\
  fits_uint (w column_img * h column_img) /\ wf column_img.
Proof.
  assert (Hl : load_ppm PpmFiles.column_file = Ok (ROk column_img)) by (vm_compute; reflexivity).
  assert (Hf : fits_uint (w column_img * h column_img)) by (unfold fits_uint, UINT_MOD; simpl; lia).
  split_and!; [exact Hl | exact Hf | exact (load_ppm_wf PpmFiles.column_file column_img Hl Hf)].
Defined.

Lemma energy_ignores_center_witness :
  set dot_image 1 1 blk = Ok (new_image 3 3) /\
  energy_px (new_image 3 3) 1 1 = energy_px dot_image 1 1.
Proof.
  assert (Hs : set dot_image 1 1 blk = Ok (new_image 3 3)) by (vm_compute; reflexivity).
  split; [exact Hs |].
  apply (energy_ignores_center dot_image _ 1 1 blk); [exact dot_image_wf | simpl; lia .. | exact Hs].
Defined.

Lemma dp_cell_points_outside_witness :
  wf edge_ene /\
  dp_cell (w edge_ene) edge_ene 0 1 = Ok ((0 + PrimFloat.infinity)%float, Some Left) /\
  dp_cell (w edge_ene) edge_ene 3 1 = Ok ((0 + PrimFloat.infinity)%float, Some Right).
Proof.
  assert (Hwf : wf edge_ene) by wf_compute.
  assert (Hw : 2 <= w edge_ene) by (simpl; lia).
  assert (Hy : 0 < 1 < h edge_ene) by (simpl; lia).
  split_and!; [exact Hwf | |].
  - apply (proj1 (dp_cell_points_outside edge_ene 0 1 0%float Hwf Hw Hy eq_refl)); reflexivity.
  - apply (proj2 (dp_cell_points_outside edge_ene 3 1 0%float Hwf Hw Hy eq_refl)); reflexivity.
Defined.

Lemma load_ppm_empty_field_witness :
  load_ppm (str Lit.P3 ++ nl :: (fmt_u 1 ++ sp :: fmt_u 1) ++ nl :: fmt_u 255 ++ nl ::
            PpmFiles.two_spaces ++ nl :: []) = Fault UnwrapNone.
Proof.
  apply load_ppm_empty_field; [unfold fits_uint, UINT_MOD; lia .. | | | |].
  - apply (bool_decide_unpack _). vm_compute. reflexivity.
  - vm_compute. reflexivity.
  - vm_compute. lia.
  - exists 1. split; [lia | vm_compute; reflexivity].
Defined.

Lemma main_load_error_witness :
  load_ppm PpmFiles.p2_file = Ok (RErr Lit.not_p3) /\
  main [PpmFiles.seam; PpmFiles.in_ppm; PpmFiles.one; PpmFiles.out_ppm] (fun _ => PpmFiles.p2_file)
    = Fault UnwrapErr.
Proof.
  assert (Hl : load_ppm PpmFiles.p2_file = Ok (RErr Lit.not_p3)) by (vm_compute; reflexivity).
  split; [exact Hl |].
  apply (main_load_error _ _ PpmFiles.in_ppm Lit.not_p3); [simpl; lia | reflexivity | exact Hl].
Defined.
